(** * YASFM: track store, camera parameters, dataset copy and SIFT batch driver

    A shallow embedding of [src/YASFM/sfm_data.cpp] and
    [src/YASFM/features.cpp].

    Conventions.
    - A C++ [int] is a [Z]; no arithmetic in the modelled code comes near the
      ends of the 32-bit range, and signed overflow has no defined result
      anyway.
    - [double] and [float] are the kernel's binary64 numbers ([PrimFloat]);
      Leibniz equality on them is equality of the represented datum.
    - [umap<int,int>] is [gmap Z Z]; [uset<int>] is [gset Z].
    - [vector<T>] is [list T]; [operator[]] outside the vector has no defined
      behaviour in C++ and is modelled by the absence of a result.
    - [umap::at] on a missing key throws [std::out_of_range]; nothing in the
      two files catches it, so the exception leaves the member function and
      the object stays as it was at the throw. *)

From Stdlib Require Import ZArith List Floats Lia.
From stdpp Require Import gmap strings list.

(** ** Small vectors *)

Record Vector2d := mkVector2d { v2x : float; v2y : float }.
Record Vector3d := mkVector3d { v3x : float; v3y : float; v3z : float }.

(** ** Results of a member function *)

Inductive outcome (A : Type) : Type :=
| Done (a : A)
| Thrown (a : A)
| Undefined.
Arguments Done {A} a.
Arguments Thrown {A} a.
Arguments Undefined {A}.

(** Sequencing of two mutations of the same object: the second runs only when
    the first returned. *)
Definition and_then {A} (r : outcome A) (k : A → outcome A) : outcome A :=
  match r with
  | Done a => k a
  | Thrown a => Thrown a
  | Undefined => Undefined
  end.

(** [v[i]] for an [int] (or [size_t]) index. *)
Definition vec_at {A} (v : list A) (i : Z) : option A :=
  if (i <? 0)%Z then None else v !! Z.to_nat i.

(** ** The track store *)

(** [NViewMatch] is [umap<int,int>]: camera index to key (observation) index. *)
Abbreviation NViewMatch := (gmap Z Z).

Record SplitNViewMatch := mkSplitNViewMatch {
  observedPart : NViewMatch;
  unobservedPart : NViewMatch
}.

Record IntPair := mkIntPair { first : Z; second : Z }.

Record PointData := mkPointData {
  reconstructed : NViewMatch;
  toReconstruct : NViewMatch
}.

Record Points := mkPoints {
  matchesToReconstruct_ : list NViewMatch;
  ptCoord_ : list Vector3d;
  ptData_ : list PointData
}.

(** A default-constructed [Points]. *)
Definition Points_empty : Points := mkPoints [] [] [].

Definition numPts (p : Points) : Z := Z.of_nat (length (ptCoord_ p)).

(** [m.emplace(k,v)]: inserts only when [k] is not yet a key. *)
Definition emplace (k v : Z) (m : NViewMatch) : NViewMatch :=
  match m !! k with
  | Some _ => m
  | None => <[k:=v]> m
  end.

(** Modelled from the spec: [filterVector] is declared in the utilities of the
    repository, which are not among the sources.  It compacts a vector by a
    mask of the same length, keeping the elements whose mask entry is true in
    their relative order.  A mask of another length has no defined result. *)
Fixpoint filterVector {A} (keep : list bool) (v : list A) : option (list A) :=
  match keep, v with
  | [], [] => Some []
  | k :: keep', x :: v' =>
      match filterVector keep' v' with
      | Some r => Some (if k then x :: r else r)
      | None => None
      end
  | _, _ => None
  end.

(** Modelled from the spec: [filterOutOutliers] is declared in the utilities
    of the repository, which are not among the sources.  It removes from the
    vector the elements at the listed positions ("removes the consumed
    matches from the pending buffer"); a listed position outside the vector
    has no defined result. *)
Definition outliersMask {A} (outliers : list Z) (arr : list A) : list bool :=
  imap (λ j _, bool_decide (Z.of_nat j ∉ outliers)) arr.

Definition filterOutOutliers {A} (outliers : list Z) (arr : list A)
  : option (list A) :=
  if forallb (λ i, bool_decide (0 ≤ i < Z.of_nat (length arr))%Z) outliers
  then filterVector (outliersMask outliers arr) arr
  else None.

(** [ptCoord_.push_back(c); ptData_.emplace_back()] followed by writes to
    [ptData_.back()]: the store with one more track. *)
Definition pushTrack (c : Vector3d) (d : PointData) (p : Points) : Points :=
  {| matchesToReconstruct_ := matchesToReconstruct_ p;
     ptCoord_ := ptCoord_ p ++ [c];
     ptData_ := ptData_ p ++ [d] |}.

(** The track written by one iteration of the first [addPoints]. *)
Definition seedTrack (camsIdxs : IntPair) (nViewMatch : NViewMatch)
  (k1 k2 : Z) : PointData :=
  {| reconstructed := <[second camsIdxs := k2]> (<[first camsIdxs := k1]> ∅);
     toReconstruct :=
       delete (second camsIdxs) (delete (first camsIdxs) nViewMatch) |}.

(** The loop of [Points::addPoints(camsIdxs, matchesToReconstructIdxs, coord)],
    iteration [i] reading [coord[i]] and [matchesToReconstructIdxs[i]].  The
    value [nViewMatch.at(cam)] is computed before the entry of
    [reconstructed] is created (the order C++17 fixes for an assignment). *)
Fixpoint addPoints_loop (camsIdxs : IntPair)
  (matchesToReconstructIdxs : list Z) (coord : list Vector3d) (p : Points)
  {struct coord} : outcome Points :=
  match coord with
  | [] => Done p
  | c :: coord' =>
      match matchesToReconstructIdxs with
      | [] => Undefined
      | idx :: idxs' =>
          match vec_at (matchesToReconstruct_ p) idx with
          | None => Undefined
          | Some nViewMatch =>
              match nViewMatch !! first camsIdxs with
              | None => Thrown (pushTrack c (mkPointData ∅ ∅) p)
              | Some k1 =>
                  match nViewMatch !! second camsIdxs with
                  | None =>
                      Thrown (pushTrack c
                                (mkPointData (<[first camsIdxs := k1]> ∅) ∅) p)
                  | Some k2 =>
                      addPoints_loop camsIdxs idxs' coord'
                        (pushTrack c (seedTrack camsIdxs nViewMatch k1 k2) p)
                  end
              end
          end
      end
  end.

Definition addPoints (camsIdxs : IntPair) (matchesToReconstructIdxs : list Z)
  (coord : list Vector3d) (p : Points) : outcome Points :=
  and_then (addPoints_loop camsIdxs matchesToReconstructIdxs coord p)
    (λ p',
      match filterOutOutliers matchesToReconstructIdxs
              (matchesToReconstruct_ p') with
      | Some ms =>
          Done {| matchesToReconstruct_ := ms;
                  ptCoord_ := ptCoord_ p';
                  ptData_ := ptData_ p' |}
      | None => Undefined
      end).

(** [Points::addPoints(pointCoord, pointViews)]. *)
Fixpoint addPointsViews (pointCoord : list Vector3d)
  (pointViews : list SplitNViewMatch) (p : Points) {struct pointCoord}
  : outcome Points :=
  match pointCoord with
  | [] => Done p
  | c :: pointCoord' =>
      match pointViews with
      | [] => Undefined
      | v :: pointViews' =>
          addPointsViews pointCoord' pointViews'
            (pushTrack c (mkPointData (observedPart v) (unobservedPart v)) p)
      end
  end.

(** [Points::removePoints(keep)]. *)
Definition removePoints (keep : list bool) (p : Points) : outcome Points :=
  match filterVector keep (ptCoord_ p) with
  | None => Undefined
  | Some cs =>
      match filterVector keep (ptData_ p) with
      | None => Undefined
      | Some ds =>
          Done {| matchesToReconstruct_ := matchesToReconstruct_ p;
                  ptCoord_ := cs;
                  ptData_ := ds |}
      end
  end.

(** One iteration of the loop of [Points::markCamAsReconstructed(camIdx)]. *)
Definition promoteCam (camIdx k : Z) (entry : PointData) : PointData :=
  {| reconstructed := emplace camIdx k (reconstructed entry);
     toReconstruct := delete camIdx (toReconstruct entry) |}.

(** The loop over [ptData_]: the entries as they are when the loop stops, and
    whether it ran to the end ([false]: [at] threw at some entry). *)
Fixpoint markCam_entries (camIdx : Z) (entries : list PointData)
  : list PointData * bool :=
  match entries with
  | [] => ([], true)
  | entry :: rest =>
      match toReconstruct entry !! camIdx with
      | None => (entry :: rest, false)
      | Some k =>
          let '(rest', ok) := markCam_entries camIdx rest in
          (promoteCam camIdx k entry :: rest', ok)
      end
  end.

Definition withPtData (p : Points) (d : list PointData) : Points :=
  {| matchesToReconstruct_ := matchesToReconstruct_ p;
     ptCoord_ := ptCoord_ p;
     ptData_ := d |}.

Definition markCamAsReconstructed (camIdx : Z) (p : Points) : outcome Points :=
  let '(d, ok) := markCam_entries camIdx (ptData_ p) in
  if ok then Done (withPtData p d) else Thrown (withPtData p d).

(** First loop of the three-argument [Points::markCamAsReconstructed]. *)
Fixpoint markInliers (camIdx : Z) (correspondingPoints : list Z)
  (correspondingPointsInliers : list Z) (d : list PointData)
  : outcome (list PointData) :=
  match correspondingPointsInliers with
  | [] => Done d
  | inlierIdx :: rest =>
      match vec_at correspondingPoints inlierIdx with
      | None => Undefined
      | Some ptIdx =>
          match vec_at d ptIdx with
          | None => Undefined
          | Some entry =>
              match toReconstruct entry !! camIdx with
              | None => Thrown d
              | Some k =>
                  markInliers camIdx correspondingPoints rest
                    (<[Z.to_nat ptIdx :=
                         {| reconstructed :=
                              emplace camIdx k (reconstructed entry);
                            toReconstruct := toReconstruct entry |}]> d)
              end
          end
      end
  end.

(** Second loop of the three-argument [Points::markCamAsReconstructed]. *)
Fixpoint eraseCam (camIdx : Z) (correspondingPoints : list Z)
  (d : list PointData) : outcome (list PointData) :=
  match correspondingPoints with
  | [] => Done d
  | ptIdx :: rest =>
      match vec_at d ptIdx with
      | None => Undefined
      | Some entry =>
          eraseCam camIdx rest
            (<[Z.to_nat ptIdx :=
                 {| reconstructed := reconstructed entry;
                    toReconstruct := delete camIdx (toReconstruct entry) |}]> d)
      end
  end.

Definition liftPtData (p : Points) (r : outcome (list PointData))
  : outcome Points :=
  match r with
  | Done d => Done (withPtData p d)
  | Thrown d => Thrown (withPtData p d)
  | Undefined => Undefined
  end.

Definition markCamAsReconstructedInliers (camIdx : Z)
  (correspondingPoints correspondingPointsInliers : list Z) (p : Points)
  : outcome Points :=
  liftPtData p
    (and_then
       (markInliers camIdx correspondingPoints correspondingPointsInliers
          (ptData_ p))
       (eraseCam camIdx correspondingPoints)).

(** The mutating interface of [Points], as a type of calls. *)
Inductive PointsOp :=
| OpAddPoints (camsIdxs : IntPair) (idxs : list Z) (coord : list Vector3d)
| OpAddPointsViews (pointCoord : list Vector3d)
    (pointViews : list SplitNViewMatch)
| OpRemovePoints (keep : list bool)
| OpMarkCam (camIdx : Z)
| OpMarkCamInliers (camIdx : Z) (correspondingPoints inliers : list Z).

Definition runOp (op : PointsOp) (p : Points) : outcome Points :=
  match op with
  | OpAddPoints camsIdxs idxs coord => addPoints camsIdxs idxs coord p
  | OpAddPointsViews pointCoord pointViews =>
      addPointsViews pointCoord pointViews p
  | OpRemovePoints keep => removePoints keep p
  | OpMarkCam camIdx => markCamAsReconstructed camIdx p
  | OpMarkCamInliers camIdx cps inliers =>
      markCamAsReconstructedInliers camIdx cps inliers p
  end.

Fixpoint runOps (ops : list PointsOp) (p : Points) : outcome Points :=
  match ops with
  | [] => Done p
  | op :: ops' => and_then (runOp op p) (runOps ops')
  end.

(** ** Cameras *)

Record AngleAxisd := mkAngleAxisd { angle : float; axis : Vector3d }.

(** [Matrix3d], row by row. *)
Record Matrix3d := mkMatrix3d {
  m00 : float; m01 : float; m02 : float;
  m10 : float; m11 : float; m12 : float;
  m20 : float; m21 : float; m22 : float
}.

(** [ArrayXXf]: the number of rows and the columns, each of that many
    coefficients. *)
Record ArrayXXf := mkArrayXXf { arr_rows : nat; arr_cols : list (list float) }.

(** What the two files take from the rest of the repository and from Eigen:
    the image probe [getImgDims] (given the values its two out-parameters
    hold before the call, their values after it), Eigen's conversion of a
    rotation matrix to angle and axis, the fit of the inverse radial
    distortion, and the coefficients a resized array holds before anything is
    written to them. *)
Class Externals := {
  getImgDims : string → Z → Z → Z * Z;
  fromRotationMatrix : Matrix3d → AngleAxisd;
  approximateInverseRadialDistortion :
    Z → Z → float → list float → list float → list float;
  resizedCoefficients : nat → nat → list (list float)
}.

Definition double_of_int (z : Z) : float :=
  if (z <? 0)%Z
  then PrimFloat.opp (PrimFloat.of_uint63 (Uint63.of_Z (- z)))
  else PrimFloat.of_uint63 (Uint63.of_Z z).

Definition UnitX : Vector3d := mkVector3d 1 0 0.
Definition Zero3 : Vector3d := mkVector3d 0 0 0.

(** [v.squaredNorm()], summed from the first coefficient on. *)
Definition squaredNorm (v : Vector3d) : float :=
  (v3x v * v3x v + v3y v * v3y v + v3z v * v3z v)%float.

(** [v / s] and [s * v], coefficient by coefficient. *)
Definition div3 (v : Vector3d) (s : float) : Vector3d :=
  mkVector3d (v3x v / s) (v3y v / s) (v3z v / s).
Definition scale3 (s : float) (v : Vector3d) : Vector3d :=
  mkVector3d (s * v3x v) (s * v3y v) (s * v3z v).
Definition sub2 (a b : Vector2d) : Vector2d :=
  mkVector2d (v2x a - v2x b) (v2y a - v2y b).
Definition div2 (v : Vector2d) (s : float) : Vector2d :=
  mkVector2d (v2x v / s) (v2y v / s).
Definition scale2 (s : float) (v : Vector2d) : Vector2d :=
  mkVector2d (s * v2x v) (s * v2y v).
Definition norm2 (v : Vector2d) : float :=
  PrimFloat.sqrt (v2x v * v2x v + v2y v * v2y v).

Record Camera := mkCamera {
  imgFilename_ : string;
  imgWidth_ : Z;
  imgHeight_ : Z;
  keys_ : list Vector2d;
  descr_ : ArrayXXf
}.

Record StandardCamera := mkStandardCamera {
  base : Camera;
  rot_ : AngleAxisd;
  C_ : Vector3d;
  f_ : float;
  x0_ : Vector2d;
  paramsConstraints_ : list float;
  paramsConstraintsWeights_ : list float
}.

Record StandardCameraRadial := mkStandardCameraRadial {
  standard : StandardCamera;
  radParams_ : float * float;
  invRadParams_ : list float
}.

(** Modelled from the spec: the layout constants of the parameter vector are
    declared in the header, which is not among the sources.  The layout is
    [rotation(3), center(3), focal(1)], 7 scalars, extended by two radial
    coefficients to 9. *)
Definition rotIdx_ : nat := 0.
Definition CIdx_ : nat := 3.
Definition fIdx_ : nat := 6.
Definition nParams_ : nat := 7.
Definition radIdx_ : nat := 7.
Definition nParamsRadial_ : nat := 9.

Section CameraModel.
Context `{Externals}.

(** [Camera::Camera(imgFilename)]. *)
Definition Camera_new (imgFilename : string) : Camera :=
  let '(w, h) := getImgDims imgFilename (-1)%Z (-1)%Z in
  mkCamera imgFilename w h [] (mkArrayXXf 0 []).

(** [Camera::reserveFeatures]: [keys_.reserve] changes no element;
    [descr_.resize(dim,num)] keeps the coefficients when the size stays and
    otherwise leaves them unspecified.  Negative sizes are given no
    result. *)
Definition reserveFeatures (num dim : Z) (c : Camera) : option Camera :=
  if ((num <? 0) || (dim <? 0))%Z then None else
  let rows := Z.to_nat dim in
  let cols := Z.to_nat num in
  Some (mkCamera (imgFilename_ c) (imgWidth_ c) (imgHeight_ c) (keys_ c)
          (if decide (rows = arr_rows (descr_ c)
                      ∧ cols = length (arr_cols (descr_ c)))
           then descr_ c
           else mkArrayXXf rows (resizedCoefficients rows cols))).

(** [Camera::addFeature]: [descr] is the memory the pointer refers to; the
    column [idx] has to exist. *)
Definition addFeature (x y : float) (descr : list float) (c : Camera)
  : option Camera :=
  let idx := length (keys_ c) in
  if decide (idx < length (arr_cols (descr_ c))
             ∧ arr_rows (descr_ c) ≤ length descr)
  then Some (mkCamera (imgFilename_ c) (imgWidth_ c) (imgHeight_ c)
               (keys_ c ++ [mkVector2d x y])
               (mkArrayXXf (arr_rows (descr_ c))
                  (<[idx := take (arr_rows (descr_ c)) descr]>
                     (arr_cols (descr_ c)))))
  else None.

Definition clearDescriptors (c : Camera) : Camera :=
  mkCamera (imgFilename_ c) (imgWidth_ c) (imgHeight_ c) (keys_ c)
    (mkArrayXXf 0 []).

(** [Camera::key(i)]. *)
Definition key (c : Camera) (i : Z) : option Vector2d := vec_at (keys_ c) i.

(** [StandardCamera::StandardCamera(imgFilename)].  [rot_] is
    default-constructed, which leaves its coefficients indeterminate:
    [rot0] stands for whatever they are. *)
Definition StandardCamera_new (imgFilename : string) (rot0 : AngleAxisd)
  : StandardCamera :=
  let c := Camera_new imgFilename in
  {| base := c;
     rot_ := rot0;
     C_ := Zero3;
     f_ := 0;
     x0_ := mkVector2d (0.5 * double_of_int (imgWidth_ c - 1))
                       (0.5 * double_of_int (imgHeight_ c - 1));
     paramsConstraints_ := replicate nParams_ 0%float;
     paramsConstraintsWeights_ := replicate nParams_ 0%float |}.

Definition withBase (c : StandardCamera) (b : Camera) : StandardCamera :=
  {| base := b; rot_ := rot_ c; C_ := C_ c; f_ := f_ c; x0_ := x0_ c;
     paramsConstraints_ := paramsConstraints_ c;
     paramsConstraintsWeights_ := paramsConstraintsWeights_ c |}.

Definition setFocal (f : float) (c : StandardCamera) : StandardCamera :=
  {| base := base c; rot_ := rot_ c; C_ := C_ c; f_ := f; x0_ := x0_ c;
     paramsConstraints_ := paramsConstraints_ c;
     paramsConstraintsWeights_ := paramsConstraintsWeights_ c |}.

Definition constrainFocal (constraint weigtht : float) (c : StandardCamera)
  : StandardCamera :=
  {| base := base c; rot_ := rot_ c; C_ := C_ c; f_ := f_ c; x0_ := x0_ c;
     paramsConstraints_ := <[fIdx_ := constraint]> (paramsConstraints_ c);
     paramsConstraintsWeights_ :=
       <[fIdx_ := weigtht]> (paramsConstraintsWeights_ c) |}.

Definition setRotation (R : Matrix3d) (c : StandardCamera) : StandardCamera :=
  {| base := base c; rot_ := fromRotationMatrix R; C_ := C_ c; f_ := f_ c;
     x0_ := x0_ c;
     paramsConstraints_ := paramsConstraints_ c;
     paramsConstraintsWeights_ := paramsConstraintsWeights_ c |}.

Definition setC (C : Vector3d) (c : StandardCamera) : StandardCamera :=
  {| base := base c; rot_ := rot_ c; C_ := C; f_ := f_ c; x0_ := x0_ c;
     paramsConstraints_ := paramsConstraints_ c;
     paramsConstraintsWeights_ := paramsConstraintsWeights_ c |}.

(** [StandardCamera::setParamsConstraints]: the loop reads [constraints[i]]
    and [weights[i]] for every [i] below [paramsConstraints_.size()]. *)
Definition setParamsConstraints (constraints weights : list float)
  (c : StandardCamera) : option StandardCamera :=
  let n := length (paramsConstraints_ c) in
  if decide (n ≤ length constraints ∧ n ≤ length weights
             ∧ n ≤ length (paramsConstraintsWeights_ c))
  then Some {| base := base c; rot_ := rot_ c; C_ := C_ c; f_ := f_ c;
               x0_ := x0_ c;
               paramsConstraints_ := take n constraints;
               paramsConstraintsWeights_ :=
                 take n weights ++ drop n (paramsConstraintsWeights_ c) |}
  else None.

(** [StandardCamera::keyNormalized(i)]. *)
Definition keyNormalized (c : StandardCamera) (i : Z) : option Vector2d :=
  match key (base c) i with
  | Some k => Some (div2 (sub2 k (x0_ c)) (f_ c))
  | None => None
  end.

(** [StandardCamera::params]: the vector is resized to [nParams_] and every
    entry is written, so the result does not depend on what it held. *)
Definition params (c : StandardCamera) : list float :=
  let rot := scale3 (angle (rot_ c)) (axis (rot_ c)) in
  [v3x rot; v3y rot; v3z rot; v3x (C_ c); v3y (C_ c); v3z (C_ c); f_ c].

(** The three coefficients a [Map<const Vector3d>] at [&params[i]] reads. *)
Definition map3 (params : list float) (i : nat) : option Vector3d :=
  match params !! i, params !! (i + 1), params !! (i + 2) with
  | Some a, Some b, Some c => Some (mkVector3d a b c)
  | _, _, _ => None
  end.

(** [StandardCamera::setParams(const vector<double>&)]. *)
Definition setParams (params : list float) (c : StandardCamera)
  : option StandardCamera :=
  match map3 params rotIdx_, map3 params CIdx_, params !! fIdx_ with
  | Some rot, Some C, Some f =>
      let angle0 := squaredNorm rot in
      let rot' :=
        if (angle0 =? 0)%float
        then mkAngleAxisd angle0 UnitX
        else mkAngleAxisd (PrimFloat.sqrt angle0)
               (div3 rot (PrimFloat.sqrt angle0)) in
      Some {| base := base c; rot_ := rot'; C_ := C; f_ := f; x0_ := x0_ c;
              paramsConstraints_ := paramsConstraints_ c;
              paramsConstraintsWeights_ := paramsConstraintsWeights_ c |}
  | _, _, _ => None
  end.

(** [StandardCameraRadial::StandardCameraRadial(imgFilename)]. *)
Definition StandardCameraRadial_new (imgFilename : string)
  (rot0 : AngleAxisd) : StandardCameraRadial :=
  let c := StandardCamera_new imgFilename rot0 in
  {| standard :=
       {| base := base c; rot_ := rot_ c; C_ := C_ c; f_ := f_ c;
          x0_ := x0_ c;
          paramsConstraints_ := paramsConstraints_ c ++ [0%float; 0%float];
          paramsConstraintsWeights_ :=
            paramsConstraintsWeights_ c ++ [0%float; 0%float] |};
     radParams_ := (0%float, 0%float);
     invRadParams_ := replicate 4 0%float |}.

Definition withStandard (c : StandardCameraRadial) (s : StandardCamera)
  : StandardCameraRadial :=
  {| standard := s; radParams_ := radParams_ c;
     invRadParams_ := invRadParams_ c |}.

(** [StandardCameraRadial::keyNormalized(i)]. *)
Definition undistort (inv : list float) (distorted : Vector2d) : Vector2d :=
  let radius := norm2 distorted in
  let i0 := nth 0 inv 0%float in
  let i1 := nth 1 inv 0%float in
  let i2 := nth 2 inv 0%float in
  let i3 := nth 3 inv 0%float in
  let undistortFactor :=
    (1 + radius * (i0 + radius * (i1 + radius * (i2 + radius * i3))))%float in
  scale2 undistortFactor distorted.

Definition keyNormalizedRadial (c : StandardCameraRadial) (i : Z)
  : option Vector2d :=
  match keyNormalized (standard c) i with
  | Some distorted => Some (undistort (invRadParams_ c) distorted)
  | None => None
  end.

(** [StandardCameraRadial::params]. *)
Definition paramsRadial (c : StandardCameraRadial) : list float :=
  params (standard c) ++ [fst (radParams_ c)] ++ [snd (radParams_ c)].

(** [StandardCameraRadial::setParams(const vector<double>&)]. *)
Definition setParamsRadial (params : list float) (c : StandardCameraRadial)
  : option StandardCameraRadial :=
  match setParams params (standard c),
        params !! (radIdx_ + 0), params !! (radIdx_ + 1) with
  | Some s, Some r0, Some r1 =>
      let radParamsFull := [0%float; r0; 0%float; r1] in
      let xMax := (double_of_int (imgWidth_ (base s)) - v2x (x0_ s))%float in
      let yMax := (double_of_int (imgHeight_ (base s)) - v2y (x0_ s))%float in
      let maxRadius := PrimFloat.sqrt (xMax * xMax + yMax * yMax) in
      let nForward := Z.of_nat (length radParamsFull) in
      let nInverse := Z.of_nat (length (invRadParams_ c)) in
      Some {| standard := s;
              radParams_ := (r0, r1);
              invRadParams_ :=
                approximateInverseRadialDistortion nForward nInverse
                  maxRadius radParamsFull (invRadParams_ c) |}
  | _, _, _ => None
  end.

(** The mutators of a [StandardCamera] other than [setFocal] and the two
    [setParams]. *)
Inductive CamOp :=
| OpReserveFeatures (num dim : Z)
| OpAddFeature (x y : float) (descr : list float)
| OpClearDescriptors
| OpConstrainFocal (constraint weigtht : float)
| OpSetRotation (R : Matrix3d)
| OpSetC (C : Vector3d)
| OpSetParamsConstraints (constraints weights : list float).

Definition runCamOp (op : CamOp) (c : StandardCamera)
  : option StandardCamera :=
  match op with
  | OpReserveFeatures num dim =>
      withBase c <$> reserveFeatures num dim (base c)
  | OpAddFeature x y descr => withBase c <$> addFeature x y descr (base c)
  | OpClearDescriptors => Some (withBase c (clearDescriptors (base c)))
  | OpConstrainFocal constraint weigtht =>
      Some (constrainFocal constraint weigtht c)
  | OpSetRotation R => Some (setRotation R c)
  | OpSetC C => Some (setC C c)
  | OpSetParamsConstraints constraints weights =>
      setParamsConstraints constraints weights c
  end.

Fixpoint runCamOps (ops : list CamOp) (c : StandardCamera)
  : option StandardCamera :=
  match ops with
  | [] => Some c
  | op :: ops' =>
      match runCamOp op c with
      | Some c' => runCamOps ops' c'
      | None => None
      end
  end.

(** [StandardCameraRadial::constrainRadial]. *)
Definition constrainRadial (constraints weigthts : float * float)
  (c : StandardCameraRadial) : StandardCameraRadial :=
  let s := standard c in
  withStandard c
    {| base := base s; rot_ := rot_ s; C_ := C_ s; f_ := f_ s; x0_ := x0_ s;
       paramsConstraints_ :=
         <[radIdx_ + 1 := snd constraints]>
           (<[radIdx_ + 0 := fst constraints]> (paramsConstraints_ s));
       paramsConstraintsWeights_ :=
         <[radIdx_ + 1 := snd weigthts]>
           (<[radIdx_ + 0 := fst weigthts]>
              (paramsConstraintsWeights_ s)) |}.

(** The mutators of a [StandardCameraRadial] that set no focal length: those
    it inherits and [constrainRadial]. *)
Inductive RadialOp :=
| OpInherited (op : CamOp)
| OpConstrainRadial (constraints weigthts : float * float).

Definition runRadialOp (op : RadialOp) (c : StandardCameraRadial)
  : option StandardCameraRadial :=
  match op with
  | OpInherited op' => withStandard c <$> runCamOp op' (standard c)
  | OpConstrainRadial constraints weigthts =>
      Some (constrainRadial constraints weigthts c)
  end.

Fixpoint runRadialOps (ops : list RadialOp) (c : StandardCameraRadial)
  : option StandardCameraRadial :=
  match ops with
  | [] => Some c
  | op :: ops' =>
      match runRadialOp op c with
      | Some c' => runRadialOps ops' c'
      | None => None
      end
  end.

(** A camera with a parameter vector, by its dynamic type, and the virtual
    [setParams(const vector<double>&)] and [params] called through it. *)
Inductive ParamCamera :=
| PStandard (c : StandardCamera)
| PRadial (c : StandardCameraRadial).

Definition numParams (c : ParamCamera) : nat :=
  match c with
  | PStandard _ => nParams_
  | PRadial _ => nParamsRadial_
  end.

Definition virtualSetParams (params : list float) (c : ParamCamera)
  : option ParamCamera :=
  match c with
  | PStandard s => PStandard <$> setParams params s
  | PRadial r => PRadial <$> setParamsRadial params r
  end.

Definition virtualParams (c : ParamCamera) : list float :=
  match c with
  | PStandard s => params s
  | PRadial r => paramsRadial r
  end.

End CameraModel.

(** ** Datasets *)

(** An object a [unique_ptr<Camera>] can own, by its dynamic type. *)
Inductive CameraObj :=
| ObjCamera (c : Camera)
| ObjStandardCamera (c : StandardCamera)
| ObjStandardCameraRadial (c : StandardCameraRadial).

(** The free store: the camera objects alive, by address. *)
Abbreviation heap := (gmap positive CameraObj).

(** [make_unique<T>(o)]: a new object at an address not in use. *)
Definition make_unique (o : CameraObj) (h : heap) : positive * heap :=
  let l := fresh (dom h) in (l, <[l := o]> h).

(** The virtual [clone()], called through the pointer [l]: each class copies
    itself into a new object of its own class. *)
Definition clone (l : positive) (h : heap) : option (positive * heap) :=
  match h !! l with
  | Some (ObjCamera c) => Some (make_unique (ObjCamera c) h)
  | Some (ObjStandardCamera c) => Some (make_unique (ObjStandardCamera c) h)
  | Some (ObjStandardCameraRadial c) =>
      Some (make_unique (ObjStandardCameraRadial c) h)
  | None => None
  end.

Section DatasetModel.
(** [CameraPair], the value type of [pairs_], is declared in the header; the
    functions below only copy it. *)
Context {CameraPair : Type}.

Record Dataset := mkDataset {
  dir_ : string;
  cams_ : list positive;
  pairs_ : gmap (Z * Z) CameraPair;
  reconstructedCams_ : gset Z;
  points_ : Points
}.

(** The loop of [Dataset::copyIn]: [cams_.push_back(cam->clone())] for every
    camera of the other dataset; [cams] is [cams_] of this dataset. *)
Fixpoint cloneInto (others : list positive) (cams : list positive) (h : heap)
  : option (list positive * heap) :=
  match others with
  | [] => Some (cams, h)
  | cam :: others' =>
      match clone cam h with
      | Some (l, h') => cloneInto others' (cams ++ [l]) h'
      | None => None
      end
  end.

(** [Dataset::copyIn(o)] on the dataset [this], a different object from
    [o]. *)
Definition copyIn (o this : Dataset) (h : heap) : option (Dataset * heap) :=
  match cloneInto (cams_ o) (cams_ this) h with
  | Some (cams, h') =>
      Some ({| dir_ := dir_ o;
               cams_ := cams;
               pairs_ := pairs_ o;
               reconstructedCams_ := reconstructedCams_ o;
               points_ := points_ o |}, h')
  | None => None
  end.

(** The members of a dataset before the body of a constructor runs. *)
Definition Dataset_default : Dataset :=
  mkDataset EmptyString [] ∅ ∅ Points_empty.

(** [Dataset::Dataset(const Dataset& o)]. *)
Definition Dataset_copy (o : Dataset) (h : heap) : option (Dataset * heap) :=
  copyIn o Dataset_default h.

(** [Dataset::operator=(const Dataset& o)]. *)
Definition Dataset_assign (o this : Dataset) (h : heap)
  : option (Dataset * heap) :=
  copyIn o this h.

Definition numCams (d : Dataset) : Z := Z.of_nat (length (cams_ d)).

(** [Dataset::markCamAsReconstructed], both forms. *)
Definition withPoints (d : Dataset) (rc : gset Z) (p : Points) : Dataset :=
  {| dir_ := dir_ d; cams_ := cams_ d; pairs_ := pairs_ d;
     reconstructedCams_ := rc; points_ := p |}.

Definition liftPoints (d : Dataset) (rc : gset Z) (r : outcome Points)
  : outcome Dataset :=
  match r with
  | Done p => Done (withPoints d rc p)
  | Thrown p => Thrown (withPoints d rc p)
  | Undefined => Undefined
  end.

Definition Dataset_markCamAsReconstructed (camIdx : Z) (d : Dataset)
  : outcome Dataset :=
  liftPoints d ({[camIdx]} ∪ reconstructedCams_ d)
    (markCamAsReconstructed camIdx (points_ d)).

Definition Dataset_markCamAsReconstructedInliers (camIdx : Z)
  (correspondingPoints correspondingPointsInliers : list Z) (d : Dataset)
  : outcome Dataset :=
  liftPoints d ({[camIdx]} ∪ reconstructedCams_ d)
    (markCamAsReconstructedInliers camIdx correspondingPoints
       correspondingPointsInliers (points_ d)).

End DatasetModel.
Arguments Dataset : clear implicits.

(** ** Feature detection *)

Record OptionsSIFTGPU := mkOptionsSIFTGPU {
  maxWorkingDimension : Z;
  firstOctave : Z;
  maxOctaves : Z;
  dogLevelsInAnOctave : Z;
  dogThresh : float;
  edgeThresh : float;
  detectUprightSIFT : bool;
  verbosityLevel : Z
}.

Definition isSetMaxWorkingDimension (opt : OptionsSIFTGPU) : bool :=
  (0 <=? maxWorkingDimension opt)%Z.
Definition isSetMaxOctaves (opt : OptionsSIFTGPU) : bool :=
  (0 <=? maxOctaves opt)%Z.
Definition isSetDogLevelsInAnOctave (opt : OptionsSIFTGPU) : bool :=
  (0 <=? dogLevelsInAnOctave opt)%Z.
Definition isSetDogThresh (opt : OptionsSIFTGPU) : bool :=
  (0 <=? dogThresh opt)%float.
Definition isSetEdgeThresh (opt : OptionsSIFTGPU) : bool :=
  (0 <=? edgeThresh opt)%float.

Record SiftKeypoint := mkSiftKeypoint {
  kp_x : float; kp_y : float; kp_s : float; kp_o : float
}.

(** The SiftGPU library, the two [Camera] members [features.cpp] calls that
    [sfm_data.cpp] does not define, and [std::to_string].  A [SiftGPU] value
    is the state of the detector object; a member that changes it returns the
    new state.  [GetFeatureVector] gives what the two buffers hold after the
    call, by position. *)
Class SiftGPUApi := {
  SiftGPU : Type;
  CreateNewSiftGPU : Z → SiftGPU;
  ParseParam : list string → SiftGPU → SiftGPU;
  CreateContextGL : SiftGPU → Z * SiftGPU;
  SIFTGPU_FULL_SUPPORTED : Z;
  AllocatePyramid : Z → Z → SiftGPU → SiftGPU;
  RunSIFT : string → SiftGPU → bool * SiftGPU;
  GetFeatureNum : SiftGPU → Z;
  GetFeatureVector : SiftGPU → (Z → SiftKeypoint) * (Z → float);
  to_string_int : Z → string;
  to_string_float : float → string;
  resizeFeatures : Z → Z → Camera → Camera;
  setFeature :
    Z → float → float → float → float → (Z → float) → Camera → Camera
}.

(** What the batch driver does that its caller can observe besides the
    cameras: a run of the detector on an image, and a call of the progress
    callback [fn(obj, done)]. *)
Inductive Event :=
| EvRunSIFT (imgFilename : string)
| EvCallback (fn obj : positive) (done : Z).

Section FeatureModel.
Context `{SiftGPUApi}.

(** The file-local [detectSiftGPU] on one detector and one camera. *)
Definition detectSiftGPU_cam (sift : SiftGPU) (cam : Camera)
  : SiftGPU * Camera :=
  let '(ok, sift') := RunSIFT (imgFilename_ cam) sift in
  if ok then
    let num := GetFeatureNum sift' in
    let '(keys, descr) := GetFeatureVector sift' in
    (sift',
     foldl (λ c i,
              setFeature i (kp_x (keys i)) (kp_y (keys i)) (kp_s (keys i))
                (kp_o (keys i)) (λ j, descr (i * 128 + j)%Z) c)
       (resizeFeatures num 128 cam) (seqZ 0 num))
  else (sift', cam).

Definition setParamsSiftGPU (opt : OptionsSIFTGPU) (sift : SiftGPU)
  : SiftGPU :=
  let opts :=
    ["-fo"; to_string_int (firstOctave opt)]
    ++ (if isSetMaxWorkingDimension opt
        then ["-maxd"; to_string_int (maxWorkingDimension opt)] else [])
    ++ (if isSetMaxOctaves opt
        then ["-no"; to_string_int (maxOctaves opt)] else [])
    ++ (if isSetDogLevelsInAnOctave opt
        then ["-d"; to_string_int (dogLevelsInAnOctave opt)] else [])
    ++ (if isSetDogThresh opt
        then ["-t"; to_string_float (dogThresh opt)] else [])
    ++ (if isSetEdgeThresh opt
        then ["-e"; to_string_float (edgeThresh opt)] else [])
    ++ (if detectUprightSIFT opt then ["-ofix"; "-m"; "-mo"; "1"] else [])
    ++ ["-v"; to_string_int (verbosityLevel opt)] in
  ParseParam opts sift.

Definition initializeSiftGPU (opt : OptionsSIFTGPU) (maxWidth maxHeight : Z)
  (sift : SiftGPU) : bool * SiftGPU :=
  let sift1 := setParamsSiftGPU opt sift in
  let '(code, sift2) := CreateContextGL sift1 in
  if decide (code ≠ SIFTGPU_FULL_SUPPORTED)
  then (false, sift2)
  else (true, AllocatePyramid maxWidth maxHeight sift2).

(** The second loop of the batch [detectSiftGPU]: the cameras after it and
    the events in the order they happen. *)
Fixpoint detectLoop (sift : SiftGPU) (cams : list Camera)
  (callbackFunction callbackObjectPtr : option positive) (done : Z)
  : list Camera * list Event :=
  match cams with
  | [] => ([], [])
  | pcam :: rest =>
      let '(sift', cam') := detectSiftGPU_cam sift pcam in
      let called :=
        match callbackFunction, callbackObjectPtr with
        | Some fn, Some obj => [EvCallback fn obj done]
        | _, _ => []
        end in
      let '(rest', evs) :=
        detectLoop sift' rest callbackFunction callbackObjectPtr
          (done + 1)%Z in
      (cam' :: rest', EvRunSIFT (imgFilename_ pcam) :: called ++ evs)
  end.

(** The batch [yasfm::detectSiftGPU(opt, cams, callbackFunction,
    callbackObjectPtr)]; a null pointer is [None].  The function is [void]:
    besides the cameras and the events there is nothing it gives back. *)
Definition detectSiftGPU (opt : OptionsSIFTGPU) (cams : list Camera)
  (callbackFunction callbackObjectPtr : option positive)
  : list Camera * list Event :=
  let maxWidth := foldl (λ m pcam, Z.max m (imgWidth_ pcam)) (-1)%Z cams in
  let maxHeight := foldl (λ m pcam, Z.max m (imgHeight_ pcam)) (-1)%Z cams in
  let sift := CreateNewSiftGPU 1 in
  let '(success, sift') := initializeSiftGPU opt maxWidth maxHeight sift in
  if negb success then (cams, [])
  else detectLoop sift' cams callbackFunction callbackObjectPtr 0%Z.

(** The single-camera [yasfm::detectSiftGPU(opt, cam)]. *)
Definition detectSiftGPU_single (opt : OptionsSIFTGPU) (cam : Camera)
  : Camera :=
  let sift := CreateNewSiftGPU 1 in
  let '(success, sift') :=
    initializeSiftGPU opt (imgWidth_ cam) (imgHeight_ cam) sift in
  if negb success then cam else snd (detectSiftGPU_cam sift' cam).

End FeatureModel.

(** ** Further members *)

(** [Camera::clearDescriptors] on an object of any of the three classes: the
    member is inherited and only touches the [Camera] part. *)
Definition clearDescriptorsObj (o : CameraObj) : CameraObj :=
  match o with
  | ObjCamera c => ObjCamera (clearDescriptors c)
  | ObjStandardCamera c =>
      ObjStandardCamera (withBase c (clearDescriptors (base c)))
  | ObjStandardCameraRadial c =>
      ObjStandardCameraRadial
        (withStandard c
           (withBase (standard c) (clearDescriptors (base (standard c)))))
  end.

(** [Dataset::clearDescriptors]: [cam->clearDescriptors()] through every
    pointer of [cams_]; a pointer to no live object has no defined
    behaviour. *)
Fixpoint clearDescriptorsAll (cams : list positive) (h : heap) : option heap :=
  match cams with
  | [] => Some h
  | cam :: cams' =>
      match h !! cam with
      | Some o => clearDescriptorsAll cams' (<[cam := clearDescriptorsObj o]> h)
      | None => None
      end
  end.

Definition Dataset_clearDescriptors {CameraPair : Type}
  (d : Dataset CameraPair) (h : heap) : option heap :=
  clearDescriptorsAll (cams_ d) h.

(** * Properties *)

(** ** Notions used in the statements *)

(** The store a call leaves behind, when the call has a defined behaviour. *)
Definition stateOf {A} (r : outcome A) : option A :=
  match r with
  | Done a => Some a
  | Thrown a => Some a
  | Undefined => None
  end.

(** Number of mask entries that are true. *)
Fixpoint countKept (keep : list bool) : nat :=
  match keep with
  | [] => 0
  | k :: keep' => (if k then 1 else 0) + countKept keep'
  end.

Definition sizesAgree (p : Points) : Prop :=
  length (ptCoord_ p) = length (ptData_ p).

Definition trackDisjoint (d : PointData) : Prop :=
  dom (reconstructed d) ## dom (toReconstruct d).

Definition tracksDisjoint (p : Points) : Prop :=
  Forall trackDisjoint (ptData_ p).

(** The elements of a vector at the positions that are not listed, in their
    order. *)
Definition unlisted {A} (listed : list Z) (arr : list A) : list A :=
  (filter (λ jm, Z.of_nat jm.1 ∉ listed) (imap pair arr)).*2.

(** The track [T] is referred to by an inlier index. *)
Definition inlierTrack (correspondingPoints inliers : list Z) (T : Z) : Prop :=
  Exists (λ i, vec_at correspondingPoints i = Some T) inliers.

(** The bulk import is given splits whose two parts share no camera. *)
Definition splitsDisjoint (op : PointsOp) : Prop :=
  match op with
  | OpAddPointsViews _ pointViews =>
      Forall (λ v, dom (observedPart v) ## dom (unobservedPart v)) pointViews
  | _ => True
  end.

(** The second arguments of the callback calls among some events, in order. *)
Definition callbackCounts (evs : list Event) : list Z :=
  omap (λ ev, match ev with EvCallback _ _ done => Some done | _ => None end)
    evs.

(** ** Sample data *)

(** A pending match seen by cameras 0, 1 and 2, and the store holding it. *)
Definition threeViewMatch : NViewMatch :=
  {[0%Z := 10%Z; 1%Z := 11%Z; 2%Z := 12%Z]}.
Definition pendingStore : Points := mkPoints [threeViewMatch] [] [].
Definition pair01 : IntPair := mkIntPair 0 1.
Definition origin : Vector3d := mkVector3d 0 0 0.

(** A store with two tracks: the first is not seen by camera 5, the second
    has camera 5 pending with key 7. *)
Definition twoTracks : Points :=
  mkPoints []
    [mkVector3d 0 0 0; mkVector3d 1 1 1]
    [mkPointData {[0%Z := 1%Z; 1%Z := 2%Z]} ∅;
     mkPointData {[0%Z := 3%Z; 1%Z := 4%Z]} {[5%Z := 7%Z]}].

(** Three tracks, each with camera 5 pending. *)
Definition threeTracks : Points :=
  mkPoints []
    [origin; mkVector3d 1 1 1; mkVector3d 2 2 2]
    [mkPointData {[0%Z := 1%Z]} {[5%Z := 7%Z]};
     mkPointData {[0%Z := 2%Z]} {[5%Z := 8%Z]};
     mkPointData {[0%Z := 3%Z]} {[5%Z := 9%Z; 6%Z := 4%Z]}].

(** A run of the store: seed a track, register camera 2 on it, import a
    track with a disjoint split, drop the second track. *)
Definition storeRun : list PointsOp :=
  [OpAddPoints pair01 [0%Z] [origin];
   OpMarkCamInliers 2 [0%Z] [0%Z];
   OpAddPointsViews [origin]
     [mkSplitNViewMatch {[3%Z := 1%Z]} {[4%Z := 2%Z]}];
   OpRemovePoints [true; false]].

Definition storeAfterRun : Points :=
  mkPoints [] [origin]
    [mkPointData {[0%Z := 10%Z; 1%Z := 11%Z; 2%Z := 12%Z]} ∅].

(** The collaborators of the camera model, as far as the examples need
    them: every image is 640 by 480. *)
Definition vgaExternals : Externals :=
  {| getImgDims := λ _ _ _, (640%Z, 480%Z);
     fromRotationMatrix := λ _, mkAngleAxisd 0 UnitX;
     approximateInverseRadialDistortion := λ _ _ _ _ inv, inv;
     resizedCoefficients := λ rows cols, replicate cols (replicate rows 0%float)
  |}.

(** A standard camera for a 640 by 480 image, as its constructor leaves it
    when [rot_] happens to hold a zero rotation. *)
Definition vgaCamera : StandardCamera :=
  {| base := mkCamera "img.jpg" 640 480 [] (mkArrayXXf 0 []);
     rot_ := mkAngleAxisd 0 UnitX;
     C_ := Zero3;
     f_ := 0;
     x0_ := mkVector2d 319.5 239.5;
     paramsConstraints_ := replicate nParams_ 0%float;
     paramsConstraintsWeights_ := replicate nParams_ 0%float |}.

(** A camera that got room for one feature and one key at (3, 4), and never a
    focal length. *)
Definition oneKeyOps : list CamOp :=
  [OpReserveFeatures 1 2; OpAddFeature 3 4 [0; 0]%float; OpConstrainFocal 500 1].

(** Two datasets on a free store with one camera each. *)
Definition cameraA : Camera := mkCamera "a.jpg" 640 480 [] (mkArrayXXf 0 []).
Definition cameraB : Camera := mkCamera "b.jpg" 800 600 [] (mkArrayXXf 0 []).
Definition twoCameraHeap : heap :=
  {[1%positive := ObjCamera cameraA; 2%positive := ObjCamera cameraB]}.
Definition datasetA : Dataset unit :=
  mkDataset "dirA" [1%positive] ∅ ∅ Points_empty.
Definition datasetB : Dataset unit :=
  mkDataset "dirB" [2%positive] ∅ {[0%Z]} Points_empty.

(** A detector whose context creation reports [contextCode], where 1 stands
    for full support, and that finds no feature in any image; it ignores its
    options. *)
Definition stubSiftGPU (contextCode : Z) : SiftGPUApi :=
  {| SiftGPU := unit;
     CreateNewSiftGPU := λ _, tt;
     ParseParam := λ _ s, s;
     CreateContextGL := λ s, (contextCode, s);
     SIFTGPU_FULL_SUPPORTED := 1%Z;
     AllocatePyramid := λ _ _ s, s;
     RunSIFT := λ _ s, (true, s);
     GetFeatureNum := λ _, 0%Z;
     GetFeatureVector :=
       λ _, (λ _, mkSiftKeypoint 0 0 0 0, λ _, 0%float);
     to_string_int := λ _, EmptyString;
     to_string_float := λ _, EmptyString;
     resizeFeatures := λ _ _ c, c;
     setFeature := λ _ _ _ _ _ _ c, c |}.

Definition someOptions : OptionsSIFTGPU :=
  mkOptionsSIFTGPU (-1) 0 (-1) (-1) (-1) (-1) false 0.

(** ** Notions used in the further properties *)

(** Between two states of a track, nothing but camera [camIdx] has moved,
    and it has moved at most from [toReconstruct] to [reconstructed] or out
    of [toReconstruct]: the other cameras have the entries they had, an entry
    of [camIdx] in [reconstructed] is kept, a new one carries the key index
    that was pending, and [toReconstruct] gains nothing. *)
Definition camMoved (camIdx : Z) (e e' : PointData) : Prop :=
  (∀ cam, cam ≠ camIdx →
     reconstructed e' !! cam = reconstructed e !! cam
     ∧ toReconstruct e' !! cam = toReconstruct e !! cam)
  ∧ (∀ k, reconstructed e !! camIdx = Some k →
          reconstructed e' !! camIdx = Some k)
  ∧ (∀ k, reconstructed e' !! camIdx = Some k →
          reconstructed e !! camIdx = Some k
          ∨ toReconstruct e !! camIdx = Some k)
  ∧ (∀ k, toReconstruct e' !! camIdx = Some k →
          toReconstruct e !! camIdx = Some k).

(** A run of calls ends in a throw of the three-argument
    [markCamAsReconstructed]: the calls before it returned and it threw. *)
Fixpoint endsInInlierThrow (ops : list PointsOp) (p : Points) : bool :=
  match ops with
  | [] => false
  | op :: ops' =>
      match runOp op p with
      | Done q => endsInInlierThrow ops' q
      | Thrown _ =>
          match op with
          | OpMarkCamInliers _ _ _ => true
          | _ => false
          end
      | Undefined => false
      end
  end.

(** The track the bulk import makes of a split. *)
Definition trackOfSplit (v : SplitNViewMatch) : PointData :=
  mkPointData (observedPart v) (unobservedPart v).

(** A feature as [addFeature] takes it, and a run of [addFeature] calls. *)
Record Feature := mkFeature {
  feat_x : float; feat_y : float; feat_descr : list float
}.

Fixpoint addFeatures (feats : list Feature) (c : Camera) : option Camera :=
  match feats with
  | [] => Some c
  | f :: feats' =>
      match addFeature (feat_x f) (feat_y f) (feat_descr f) c with
      | Some c' => addFeatures feats' c'
      | None => None
      end
  end.

(** The [Camera] part of an object. *)
Definition baseOfObj (o : CameraObj) : Camera :=
  match o with
  | ObjCamera c => c
  | ObjStandardCamera c => base c
  | ObjStandardCameraRadial c => base (standard c)
  end.

(** Any member of [StandardCamera] that changes the object: those of
    [CamOp], [setFocal] and [setParams(const vector<double>&)]. *)
Inductive CamCall :=
| CallOp (op : CamOp)
| CallSetFocal (f : float)
| CallSetParams (params : list float).

Definition runCamCall `{Externals} (call : CamCall) (c : StandardCamera)
  : option StandardCamera :=
  match call with
  | CallOp op => runCamOp op c
  | CallSetFocal f => Some (setFocal f c)
  | CallSetParams params => setParams params c
  end.

Fixpoint runCamCalls `{Externals} (calls : list CamCall) (c : StandardCamera)
  : option StandardCamera :=
  match calls with
  | [] => Some c
  | call :: calls' =>
      match runCamCall call c with
      | Some c' => runCamCalls calls' c'
      | None => None
      end
  end.

(** Any member of [StandardCameraRadial] that changes the object: those it
    inherits (called on its [StandardCamera] part), [constrainRadial] and its
    own [setParams(const vector<double>&)]. *)
Inductive RadialCall :=
| RCallInherited (call : CamCall)
| RCallConstrainRadial (constraints weigthts : float * float)
| RCallSetParams (params : list float).

Definition runRadialCall `{Externals} (call : RadialCall)
  (c : StandardCameraRadial) : option StandardCameraRadial :=
  match call with
  | RCallInherited call' => withStandard c <$> runCamCall call' (standard c)
  | RCallConstrainRadial constraints weigthts =>
      Some (constrainRadial constraints weigthts c)
  | RCallSetParams params => setParamsRadial params c
  end.

Fixpoint runRadialCalls `{Externals} (calls : list RadialCall)
  (c : StandardCameraRadial) : option StandardCameraRadial :=
  match calls with
  | [] => Some c
  | call :: calls' =>
      match runRadialCall call c with
      | Some c' => runRadialCalls calls' c'
      | None => None
      end
  end.

(** ** First facts *)

Lemma and_then_Done {A} (r : outcome A) k a :
  and_then r k = Done a → ∃ b, r = Done b ∧ k b = Done a.
Proof. destruct r; simpl; intros; eauto; discriminate. Qed.

Lemma vec_at_Some {A} (v : list A) (i : Z) x :
  vec_at v i = Some x ↔ (0 ≤ i)%Z ∧ v !! Z.to_nat i = Some x.
Proof.
  unfold vec_at. destruct (Z.ltb_spec i 0); split.
  - discriminate.
  - intros [? _]. lia.
  - auto.
  - tauto.
Qed.

Lemma vec_at_of_nat {A} (v : list A) (n : nat) :
  vec_at v (Z.of_nat n) = v !! n.
Proof.
  unfold vec_at. destruct (Z.ltb_spec (Z.of_nat n) 0); [lia|].
  by rewrite Nat2Z.id.
Qed.


Lemma filterVector_is_Some {A} (keep : list bool) (v : list A) :
  length keep = length v → is_Some (filterVector keep v).
Proof.
  revert v. induction keep as [|k keep IH]; intros [|x v] Hl;
    simpl in *; try discriminate; eauto.
  destruct (IH v) as [r ->]; [lia|]. eauto.
Qed.

Lemma filterVector_Some_length {A} (keep : list bool) (v r : list A) :
  filterVector keep v = Some r →
  length keep = length v ∧ length r = countKept keep.
Proof.
  revert v r. induction keep as [|k keep IH]; intros [|x v] r; simpl;
    try discriminate.
  - intros [= <-]. done.
  - destruct (filterVector keep v) as [r'|] eqn:E; [|discriminate].
    intros [= <-]. destruct (IH _ _ E) as [-> Hr].
    split; [done|]. destruct k; simpl; lia.
Qed.

(** A kept element lands at the position given by the number of kept elements
    before it. *)
Lemma filterVector_lookup {A} (keep : list bool) (v r : list A) i :
  filterVector keep v = Some r →
  keep !! i = Some true →
  r !! countKept (take i keep) = v !! i.
Proof.
  revert v r i. induction keep as [|k keep IH]; intros [|x v] r i; simpl;
    try discriminate.
  destruct (filterVector keep v) as [r'|] eqn:E; [|discriminate].
  intros [= <-]. destruct i as [|i]; simpl.
  - intros [= ->]. done.
  - intros Hi. destruct k; simpl; eauto.
Qed.

(** Every position of the result is the landing position of one kept
    element. *)
Lemma countKept_onto (keep : list bool) j :
  j < countKept keep →
  ∃ i, keep !! i = Some true ∧ j = countKept (take i keep).
Proof.
  revert j. induction keep as [|k keep IH]; simpl; intros j Hj; [lia|].
  destruct k; simpl in *.
  - destruct j as [|j].
    + exists 0. done.
    + destruct (IH j) as (i & Hi & ->); [lia|]. exists (S i). done.
  - destruct (IH j) as (i & Hi & ->); [lia|]. exists (S i). done.
Qed.

Lemma countKept_take_mono (keep : list bool) i i' :
  i ≤ i' → countKept (take i keep) ≤ countKept (take i' keep).
Proof.
  revert i i'. induction keep as [|k keep IH]; intros [|i] [|i'] Hle;
    simpl; try lia.
  specialize (IH i i'). lia.
Qed.

Lemma filterVector_Forall {A} (P : A → Prop) (keep : list bool) (v r : list A) :
  filterVector keep v = Some r → Forall P v → Forall P r.
Proof.
  revert v r. induction keep as [|k keep IH]; intros [|x v] r; simpl;
    try discriminate.
  - intros [= <-]. done.
  - destruct (filterVector keep v) as [r'|] eqn:E; [|discriminate].
    intros [= <-] Hv. inversion Hv; subst.
    destruct k; eauto.
Qed.

(** ** Sizes of the two parallel vectors *)

Lemma pushTrack_sizesAgree c d p : sizesAgree p → sizesAgree (pushTrack c d p).
Proof. unfold sizesAgree. simpl. rewrite !length_app. simpl. lia. Qed.

Lemma addPoints_loop_sizesAgree camsIdxs idxs coord p q :
  sizesAgree p →
  stateOf (addPoints_loop camsIdxs idxs coord p) = Some q →
  sizesAgree q.
Proof.
  revert idxs p. induction coord as [|c coord IH]; intros idxs p Hp; simpl.
  - intros [= <-]. done.
  - destruct idxs as [|idx idxs]; [discriminate|].
    destruct (vec_at _ idx) as [m|]; [|discriminate].
    destruct (m !! first camsIdxs) as [k1|];
      [|intros [= <-]; by apply pushTrack_sizesAgree].
    destruct (m !! second camsIdxs) as [k2|];
      [|intros [= <-]; by apply pushTrack_sizesAgree].
    apply IH. by apply pushTrack_sizesAgree.
Qed.

Lemma addPointsViews_sizesAgree pointCoord pointViews p q :
  sizesAgree p →
  stateOf (addPointsViews pointCoord pointViews p) = Some q →
  sizesAgree q.
Proof.
  revert pointViews p.
  induction pointCoord as [|c cs IH]; intros views p Hp; simpl.
  - intros [= <-]. done.
  - destruct views as [|v views]; [discriminate|].
    apply IH. by apply pushTrack_sizesAgree.
Qed.

Lemma markCam_entries_length camIdx entries :
  length (markCam_entries camIdx entries).1 = length entries.
Proof.
  induction entries as [|e rest IH]; simpl; [done|].
  destruct (toReconstruct e !! camIdx); [|done].
  destruct (markCam_entries camIdx rest) as [rest' ok]. simpl in *. lia.
Qed.

Lemma markInliers_length camIdx cps inliers d r :
  stateOf (markInliers camIdx cps inliers d) = Some r → length r = length d.
Proof.
  revert d. induction inliers as [|i inliers IH]; intros d; simpl.
  - intros [= <-]. done.
  - destruct (vec_at cps i) as [t|]; [|discriminate].
    destruct (vec_at d t) as [e|]; [|discriminate].
    destruct (toReconstruct e !! camIdx) as [k|]; [|intros [= <-]; done].
    intros Hr. apply IH in Hr. by rewrite length_insert in Hr.
Qed.

Lemma eraseCam_length camIdx cps d r :
  stateOf (eraseCam camIdx cps d) = Some r → length r = length d.
Proof.
  revert d. induction cps as [|t cps IH]; intros d; simpl.
  - intros [= <-]. done.
  - destruct (vec_at d t) as [e|]; [|discriminate].
    intros Hr. apply IH in Hr. by rewrite length_insert in Hr.
Qed.

Lemma runOp_sizesAgree op p q :
  sizesAgree p → stateOf (runOp op p) = Some q → sizesAgree q.
Proof.
  intros Hp. destruct op as [pr idxs coord|cs views|keep|camIdx|camIdx cps inl];
    simpl.
  - unfold addPoints.
    destruct (addPoints_loop pr idxs coord p) as [p'|p'|] eqn:E; simpl;
      [| |discriminate].
    + assert (sizesAgree p') as Hp'.
      { eapply addPoints_loop_sizesAgree; [exact Hp|]. by rewrite E. }
      destruct (filterOutOutliers _ _); [|discriminate].
      intros [= <-]. exact Hp'.
    + intros [= <-].
      eapply addPoints_loop_sizesAgree; [exact Hp|]. by rewrite E.
  - by apply addPointsViews_sizesAgree.
  - unfold removePoints.
    destruct (filterVector keep (ptCoord_ p)) as [cs|] eqn:E1; [|discriminate].
    destruct (filterVector keep (ptData_ p)) as [ds|] eqn:E2; [|discriminate].
    intros [= <-]. unfold sizesAgree. simpl.
    apply filterVector_Some_length in E1 as [_ ->].
    apply filterVector_Some_length in E2 as [_ ->]. done.
  - unfold markCamAsReconstructed.
    pose proof (markCam_entries_length camIdx (ptData_ p)) as Hl.
    destruct (markCam_entries camIdx (ptData_ p)) as [d ok]. simpl in Hl.
    unfold sizesAgree in *.
    destruct ok; intros [= <-]; simpl; congruence.
  - unfold markCamAsReconstructedInliers.
    destruct (markInliers camIdx cps inl (ptData_ p)) as [d|d|] eqn:E1; simpl;
      [| |discriminate].
    + assert (length d = length (ptData_ p)) as Hd.
      { eapply markInliers_length. by rewrite E1. }
      destruct (eraseCam camIdx cps d) as [d'|d'|] eqn:E2; simpl;
        [| |discriminate].
      * intros [= <-]. unfold sizesAgree in *. simpl.
        assert (length d' = length d) by (eapply eraseCam_length; by rewrite E2).
        congruence.
      * intros [= <-]. unfold sizesAgree in *. simpl.
        assert (length d' = length d) by (eapply eraseCam_length; by rewrite E2).
        congruence.
    + intros [= <-]. unfold sizesAgree in *. simpl.
      assert (length d = length (ptData_ p))
        by (eapply markInliers_length; by rewrite E1).
      congruence.
Qed.

Lemma runOps_sizesAgree ops p q :
  sizesAgree p → stateOf (runOps ops p) = Some q → sizesAgree q.
Proof.
  revert p. induction ops as [|op ops IH]; intros p Hp; simpl.
  - intros [= <-]. done.
  - destruct (runOp op p) as [p'|p'|] eqn:E; simpl; [| |discriminate].
    + apply IH. eapply runOp_sizesAgree; [exact Hp|]. by rewrite E.
    + intros [= <-]. eapply runOp_sizesAgree; [exact Hp|]. by rewrite E.
Qed.

(** C5.  On a store whose two vectors have the same size, [removePoints] with
    a mask as long as the track count returns, keeps the pending buffer,
    leaves as many tracks as the mask has true entries, puts the coordinates
    and the data of every kept track [i] at the position given by the number
    of kept tracks before [i] (so kept tracks stay in their order, and no
    other track remains), and after any sequence of operations of the store
    the two vectors still have the same size, whether the last call returned
    or threw. *)
Theorem removePoints_compacts_in_lock_step (p : Points) (keep : list bool)
  (Hsizes : sizesAgree p)
  (Hmask : length keep = length (ptCoord_ p)) :
  (∃ p', removePoints keep p = Done p'
     ∧ matchesToReconstruct_ p' = matchesToReconstruct_ p
     ∧ length (ptCoord_ p') = countKept keep
     ∧ length (ptData_ p') = countKept keep
     ∧ (∀ i, keep !! i = Some true →
          ptCoord_ p' !! countKept (take i keep) = ptCoord_ p !! i
          ∧ ptData_ p' !! countKept (take i keep) = ptData_ p !! i)
     ∧ (∀ j, j < countKept keep →
          ∃ i, keep !! i = Some true ∧ j = countKept (take i keep))
     ∧ (∀ i i', i ≤ i' →
          countKept (take i keep) ≤ countKept (take i' keep)))
  ∧ (∀ ops q, stateOf (runOps ops p) = Some q → sizesAgree q).
Proof.
  split.
  - unfold removePoints.
    destruct (filterVector_is_Some keep (ptCoord_ p)) as [cs Hcs]; [done|].
    destruct (filterVector_is_Some keep (ptData_ p)) as [ds Hds];
      [unfold sizesAgree in Hsizes; congruence|].
    rewrite Hcs, Hds. eexists. split; [reflexivity|]. simpl.
    split; [done|].
    split; [by apply filterVector_Some_length in Hcs as [_ ?]|].
    split; [by apply filterVector_Some_length in Hds as [_ ?]|].
    split; [|split].
    + intros i Hi. split; eapply filterVector_lookup; eauto.
    + apply countKept_onto.
    + intros. by apply countKept_take_mono.
  - intros ops q. by apply runOps_sizesAgree.
Qed.

(** ** Seeding tracks from pending matches *)

Lemma filterVector_imap {A} (P : nat → Prop) `{!∀ j, Decision (P j)}
  (arr : list A) (n : nat) :
  filterVector (imap (λ j _, bool_decide (P (n + j))) arr) arr
  = Some (filter (λ jm, P jm.1) (imap (λ j x, (n + j, x)) arr)).*2.
Proof.
  revert n. induction arr as [|x arr IH]; intros n; [done|].
  rewrite !imap_cons. simpl.
  rewrite (imap_ext _ (λ j _, bool_decide (P (S n + j))) arr);
    [|intros; simpl; by rewrite Nat.add_succ_r].
  rewrite (imap_ext ((λ j y, (n + j, y)) ∘ S) (λ j y, (S n + j, y)) arr);
    [|intros; simpl; by rewrite Nat.add_succ_r].
  rewrite IH. rewrite filter_cons. simpl.
  rewrite Nat.add_0_r.
  destruct (decide (P n)) as [Hn|Hn].
  - rewrite bool_decide_eq_true_2 by done. done.
  - rewrite bool_decide_eq_false_2 by done. done.
Qed.

Lemma filterOutOutliers_unlisted {A} (outliers : list Z) (arr : list A) :
  (∀ i, i ∈ outliers → (0 ≤ i < Z.of_nat (length arr))%Z) →
  filterOutOutliers outliers arr = Some (unlisted outliers arr).
Proof.
  intros Hin. unfold filterOutOutliers, outliersMask, unlisted.
  assert (forallb (λ i, bool_decide (0 ≤ i < Z.of_nat (length arr))%Z)
            outliers = true) as ->.
  { apply forallb_forall. intros i Hi%list_elem_of_In.
    apply bool_decide_eq_true_2. auto. }
  exact (filterVector_imap (λ j, Z.of_nat j ∉ outliers) arr 0).
Qed.

Lemma seedTrack_reconstructed camsIdxs m k1 k2 cam :
  m !! first camsIdxs = Some k1 →
  m !! second camsIdxs = Some k2 →
  reconstructed (seedTrack camsIdxs m k1 k2) !! cam
  = if decide (cam = first camsIdxs ∨ cam = second camsIdxs)
    then m !! cam else None.
Proof.
  intros H1 H2. simpl.
  destruct (decide (cam = second camsIdxs)) as [->|Hs].
  - rewrite lookup_insert_eq. rewrite decide_True by auto. done.
  - rewrite lookup_insert_ne by done.
    destruct (decide (cam = first camsIdxs)) as [->|Hf].
    + rewrite lookup_insert_eq. rewrite decide_True by auto. done.
    + rewrite lookup_insert_ne by done. rewrite decide_False by tauto. done.
Qed.

Lemma seedTrack_toReconstruct camsIdxs m k1 k2 cam :
  toReconstruct (seedTrack camsIdxs m k1 k2) !! cam
  = if decide (cam = first camsIdxs ∨ cam = second camsIdxs)
    then None else m !! cam.
Proof.
  simpl.
  destruct (decide (cam = second camsIdxs)) as [->|Hs].
  - rewrite lookup_delete_eq. rewrite decide_True by auto. done.
  - rewrite lookup_delete_ne by done.
    destruct (decide (cam = first camsIdxs)) as [->|Hf].
    + rewrite lookup_delete_eq. rewrite decide_True by auto. done.
    + rewrite lookup_delete_ne by done. rewrite decide_False by tauto. done.
Qed.

(** The loop returns when every index it reads refers to a pending match
    that has both cameras, and appends one seeded track per coordinate. *)
Lemma addPoints_loop_Done camsIdxs coord : ∀ idxs p,
  length coord ≤ length idxs →
  (∀ idx, idx ∈ idxs →
     ∃ m, vec_at (matchesToReconstruct_ p) idx = Some m
          ∧ is_Some (m !! first camsIdxs) ∧ is_Some (m !! second camsIdxs)) →
  ∃ tracks,
    addPoints_loop camsIdxs idxs coord p
    = Done (mkPoints (matchesToReconstruct_ p) (ptCoord_ p ++ coord)
              (ptData_ p ++ tracks))
    ∧ length tracks = length coord
    ∧ ∀ i idx m, i < length coord → idxs !! i = Some idx →
        vec_at (matchesToReconstruct_ p) idx = Some m →
        ∃ k1 k2, m !! first camsIdxs = Some k1
                 ∧ m !! second camsIdxs = Some k2
                 ∧ tracks !! i = Some (seedTrack camsIdxs m k1 k2).
Proof.
  induction coord as [|c coord IH]; intros idxs p Hlen Hm.
  - exists []. simpl. rewrite !app_nil_r. destruct p. split; [done|].
    split; [done|]. intros. lia.
  - destruct idxs as [|idx idxs]; [simpl in Hlen; lia|]. simpl.
    destruct (Hm idx) as (m & Hidx & [k1 Hk1] & [k2 Hk2]); [left|].
    rewrite Hidx, Hk1, Hk2.
    destruct (IH idxs (pushTrack c (seedTrack camsIdxs m k1 k2) p))
      as (tracks & Hrun & Hlt & Htracks).
    { simpl in Hlen. lia. }
    { intros idx' Hin. simpl. apply Hm. by right. }
    exists (seedTrack camsIdxs m k1 k2 :: tracks).
    rewrite Hrun. simpl. rewrite <- !app_assoc. simpl.
    split; [done|]. split; [lia|].
    intros i idx' m' Hi Hlook Hm'. destruct i as [|i]; simpl in *.
    + injection Hlook as <-. rewrite Hidx in Hm'. injection Hm' as <-.
      eauto.
    + apply (Htracks i idx' m'); [lia|done|done].
Qed.

(** C4.  When every listed index refers to a pending match in which both
    cameras of the pair have an entry (and there is an index for every
    coordinate), [addPoints(cameraPair, matchIndices, coordinates)] returns;
    the old tracks stay, the coordinates are appended, and the track appended
    for the [i]-th coordinate has in [reconstructed] exactly the two cameras
    of the pair with the key indices of the referenced match and in
    [toReconstruct] every other entry of that match.  The pending buffer
    afterwards holds the matches at the positions that were not listed, in
    their order. *)
Theorem addPoints_seeds_from_pending_matches (camsIdxs : IntPair)
  (idxs : list Z) (coord : list Vector3d) (p : Points)
  (Hcount : length coord ≤ length idxs)
  (Hboth : ∀ idx, idx ∈ idxs →
     ∃ m, vec_at (matchesToReconstruct_ p) idx = Some m
          ∧ is_Some (m !! first camsIdxs) ∧ is_Some (m !! second camsIdxs)) :
  ∃ p', addPoints camsIdxs idxs coord p = Done p'
    ∧ ptCoord_ p' = ptCoord_ p ++ coord
    ∧ take (length (ptData_ p)) (ptData_ p') = ptData_ p
    ∧ length (ptData_ p') = length (ptData_ p) + length coord
    ∧ (∀ i idx m, i < length coord → idxs !! i = Some idx →
         vec_at (matchesToReconstruct_ p) idx = Some m →
         ∃ d, ptData_ p' !! (length (ptData_ p) + i) = Some d
           ∧ (∀ cam, reconstructed d !! cam
                     = if decide (cam = first camsIdxs ∨ cam = second camsIdxs)
                       then m !! cam else None)
           ∧ (∀ cam, toReconstruct d !! cam
                     = if decide (cam = first camsIdxs ∨ cam = second camsIdxs)
                       then None else m !! cam))
    ∧ matchesToReconstruct_ p' = unlisted idxs (matchesToReconstruct_ p).
Proof.
  destruct (addPoints_loop_Done camsIdxs coord idxs p Hcount Hboth)
    as (tracks & Hrun & Hlt & Htracks).
  unfold addPoints. rewrite Hrun. simpl.
  rewrite filterOutOutliers_unlisted.
  2:{ intros idx Hin. destruct (Hboth idx Hin) as (m & Hm & _).
      apply vec_at_Some in Hm as [H0 Hm]. apply lookup_lt_Some in Hm. lia. }
  eexists. split; [reflexivity|]. simpl.
  split; [done|]. split; [by rewrite take_app_length|].
  split; [rewrite length_app; lia|]. split; [|done].
  intros i idx m Hi Hidx Hm.
  destruct (Htracks i idx m Hi Hidx Hm) as (k1 & k2 & Hk1 & Hk2 & Ht).
  exists (seedTrack camsIdxs m k1 k2). split.
  - rewrite lookup_app_r by lia.
    replace (length (ptData_ p) + i - length (ptData_ p)) with i by lia.
    done.
  - split; intros cam.
    + by apply seedTrack_reconstructed.
    + apply seedTrack_toReconstruct.
Qed.

(** ** Registering a camera in the tracks *)

Lemma emplace_lookup k v (m : NViewMatch) j :
  emplace k v m !! j
  = if decide (j = k) then Some (default v (m !! k)) else m !! j.
Proof.
  unfold emplace. destruct (m !! k) as [w|] eqn:E; simpl.
  - case_decide; subst; done.
  - case_decide; subst; [apply lookup_insert_eq|by apply lookup_insert_ne].
Qed.

Lemma emplace_emplace k v w (m : NViewMatch) :
  emplace k w (emplace k v m) = emplace k v m.
Proof.
  unfold emplace at 1. rewrite emplace_lookup, decide_True by done. done.
Qed.

Lemma trackDisjoint_alt d :
  trackDisjoint d
  ↔ ∀ k, reconstructed d !! k = None ∨ toReconstruct d !! k = None.
Proof.
  unfold trackDisjoint. rewrite elem_of_disjoint. split.
  - intros Hd k.
    destruct (reconstructed d !! k) eqn:E1; [|by left].
    destruct (toReconstruct d !! k) eqn:E2; [|by right].
    exfalso. apply (Hd k); apply elem_of_dom; eauto.
  - intros Hd k [x Hx]%elem_of_dom [y Hy]%elem_of_dom.
    destruct (Hd k); congruence.
Qed.

Lemma promote_erase_disjoint camIdx k rec toRec :
  trackDisjoint (mkPointData rec toRec) →
  trackDisjoint (mkPointData (emplace camIdx k rec) (delete camIdx toRec)).
Proof.
  rewrite !trackDisjoint_alt. simpl. intros Hd j.
  rewrite emplace_lookup.
  destruct (decide (j = camIdx)) as [->|Hne].
  - right. apply lookup_delete_eq.
  - rewrite lookup_delete_ne by done. apply Hd.
Qed.

Lemma erase_disjoint camIdx rec toRec :
  trackDisjoint (mkPointData rec toRec) →
  trackDisjoint (mkPointData rec (delete camIdx toRec)).
Proof.
  rewrite !trackDisjoint_alt. simpl. intros Hd j.
  destruct (decide (j = camIdx)) as [->|Hne].
  - right. apply lookup_delete_eq.
  - rewrite lookup_delete_ne by done. apply Hd.
Qed.

Lemma seedTrack_disjoint camsIdxs m k1 k2 :
  trackDisjoint (seedTrack camsIdxs m k1 k2).
Proof.
  apply trackDisjoint_alt. intros cam. simpl.
  destruct (decide (cam = second camsIdxs)) as [->|Hs].
  - right. apply lookup_delete_eq.
  - destruct (decide (cam = first camsIdxs)) as [->|Hf].
    + right. rewrite lookup_delete_ne by done. apply lookup_delete_eq.
    + left. rewrite !lookup_insert_ne by done. apply lookup_empty.
Qed.

(** What the first loop has done to each track when it ran to its end. *)
Lemma markInliers_Done_tracks camIdx cps inliers : ∀ d d',
  markInliers camIdx cps inliers d = Done d' →
  ∀ t e, d !! t = Some e →
    ∃ e', d' !! t = Some e'
      ∧ toReconstruct e' = toReconstruct e
      ∧ (inlierTrack cps inliers (Z.of_nat t) →
           ∃ k, toReconstruct e !! camIdx = Some k
                ∧ reconstructed e' = emplace camIdx k (reconstructed e))
      ∧ (¬ inlierTrack cps inliers (Z.of_nat t) →
           reconstructed e' = reconstructed e).
Proof.
  unfold inlierTrack.
  induction inliers as [|i inliers IH]; intros d d'; simpl.
  - intros [= <-] t e Ht. exists e. split; [done|]. split; [done|].
    split; [|done]. intros Hex. by apply Exists_nil in Hex.
  - destruct (vec_at cps i) as [t0|] eqn:Ei; [|discriminate].
    destruct (vec_at d t0) as [e0|] eqn:Et0; [|discriminate].
    destruct (toReconstruct e0 !! camIdx) as [k0|] eqn:Ek0; [|discriminate].
    intros Hrun t e Ht.
    apply vec_at_Some in Et0 as [Ht0 Et0].
    pose proof (lookup_lt_Some _ _ _ Et0) as Hlt.
    destruct (decide (t = Z.to_nat t0)) as [->|Hne].
    + assert (e = e0) as -> by congruence.
      edestruct (IH _ _ Hrun (Z.to_nat t0)) as (e' & He' & Hto & Hin & Hout).
      { by apply list_lookup_insert_eq. }
      simpl in *. exists e'. split; [done|]. split; [done|].
      rewrite Z2Nat.id in * by done.
      split.
      * intros _. exists k0. split; [done|].
        destruct (decide (Exists (λ i, vec_at cps i = Some t0) inliers))
          as [Hex|Hex].
        -- destruct (Hin Hex) as (k & Hk & ->).
           by rewrite emplace_emplace.
        -- by apply Hout.
      * intros Hno. exfalso. apply Hno. by left.
    + edestruct (IH _ _ Hrun t) as (e' & He' & Hto & Hin & Hout).
      { rewrite list_lookup_insert_ne by done. exact Ht. }
      exists e'. split; [done|]. split; [done|].
      assert (vec_at cps i ≠ Some (Z.of_nat t)) as Hi.
      { rewrite Ei. intros [= ->]. apply Hne. by rewrite Nat2Z.id. }
      split.
      * intros Hex. apply Exists_cons in Hex as [Hex|Hex]; [done|]. auto.
      * intros Hno. apply Hout. intros Hex. apply Hno. by right.
Qed.

(** What the second loop does to each track; it cannot throw. *)
Lemma eraseCam_tracks camIdx cps : ∀ d d',
  stateOf (eraseCam camIdx cps d) = Some d' →
  eraseCam camIdx cps d = Done d'
  ∧ ∀ t e, d !! t = Some e →
      ∃ e', d' !! t = Some e'
        ∧ reconstructed e' = reconstructed e
        ∧ toReconstruct e'
          = if decide (Z.of_nat t ∈ cps)
            then delete camIdx (toReconstruct e) else toReconstruct e.
Proof.
  induction cps as [|t0 cps IH]; intros d d'; simpl.
  - intros [= <-]. split; [done|]. intros t e Ht. exists e. done.
  - destruct (vec_at d t0) as [e0|] eqn:Et0; [|discriminate].
    intros Hrun. destruct (IH _ _ Hrun) as [Hdone Htracks].
    split; [done|]. intros t e Ht.
    apply vec_at_Some in Et0 as [Ht0 Et0].
    pose proof (lookup_lt_Some _ _ _ Et0) as Hlt.
    destruct (decide (t = Z.to_nat t0)) as [->|Hne].
    + assert (e = e0) as -> by congruence.
      edestruct (Htracks (Z.to_nat t0)) as (e' & He' & Hrec & Hto).
      { by apply list_lookup_insert_eq. }
      simpl in *. exists e'. split; [done|]. split; [done|].
      rewrite Z2Nat.id in * by done.
      rewrite decide_True by left. rewrite Hto.
      case_decide; [by rewrite delete_delete_eq|done].
    + edestruct (Htracks t) as (e' & He' & Hrec & Hto).
      { rewrite list_lookup_insert_ne by done. exact Ht. }
      exists e'. split; [done|]. split; [done|]. rewrite Hto.
      assert (Z.of_nat t ≠ t0) by (intros <-; apply Hne; by rewrite Nat2Z.id).
      destruct (decide (Z.of_nat t ∈ cps)) as [Hin|Hin].
      * rewrite decide_True by (by right). done.
      * rewrite decide_False; [done|].
        intros [?|?]%elem_of_cons; done.
Qed.




Lemma markCam_entries_disjoint camIdx entries :
  Forall trackDisjoint entries →
  Forall trackDisjoint (markCam_entries camIdx entries).1.
Proof.
  induction 1 as [|e rest He Hrest IH]; simpl; [constructor|].
  destruct (toReconstruct e !! camIdx) as [k|]; [|by constructor].
  destruct (markCam_entries camIdx rest) as [rest' ok]. simpl in *.
  constructor; [|done].
  destruct e as [rec toRec]. by apply promote_erase_disjoint.
Qed.

(** The one-argument form on a store in which every track has the camera
    pending: it returns, and every track has the camera promoted. *)
Lemma markCam_entries_all_pending camIdx entries :
  Forall (λ e, is_Some (toReconstruct e !! camIdx)) entries →
  markCam_entries camIdx entries
  = ((λ e, promoteCam camIdx (default 0%Z (toReconstruct e !! camIdx)) e)
       <$> entries, true).
Proof.
  induction 1 as [|e rest [k Hk] Hrest IH]; simpl; [done|].
  rewrite Hk, IH. done.
Qed.

Lemma markCamAsReconstructed_all_pending camIdx p :
  Forall (λ e, is_Some (toReconstruct e !! camIdx)) (ptData_ p) →
  ∃ p', markCamAsReconstructed camIdx p = Done p'
    ∧ ∀ t e, ptData_ p !! t = Some e →
        ∃ e' k, ptData_ p' !! t = Some e'
          ∧ toReconstruct e !! camIdx = Some k
          ∧ reconstructed e' = emplace camIdx k (reconstructed e)
          ∧ toReconstruct e' !! camIdx = None.
Proof.
  intros Hall. unfold markCamAsReconstructed.
  rewrite (markCam_entries_all_pending _ _ Hall).
  eexists. split; [reflexivity|]. simpl. intros t e Ht.
  rewrite list_lookup_fmap, Ht. simpl.
  destruct (proj1 (Forall_lookup _ _) Hall t e Ht) as [k Hk].
  eexists _, k. split; [reflexivity|]. rewrite Hk. simpl.
  split; [done|]. split; [done|]. apply lookup_delete_eq.
Qed.

(** C3.  On the store [twoTracks] the one-argument
    [markCamAsReconstructed(5)] does not return: [at] throws at the first
    track, which has no pending entry for camera 5, the store is left as it
    was, and the second track still has camera 5 in [toReconstruct] and not
    in [reconstructed]. *)
Theorem markCamAsReconstructed_throws_at_track_without_camera :
  markCamAsReconstructed 5 twoTracks = Thrown twoTracks
  ∧ ∃ e, ptData_ twoTracks !! 1 = Some e
         ∧ toReconstruct e !! 5%Z = Some 7%Z
         ∧ reconstructed e !! 5%Z = None.
Proof.
  split; [reflexivity|]. eexists. split; [reflexivity|]. split; reflexivity.
Qed.

(** ** Disjointness of the two maps of a track *)

Lemma pushTrack_disjoint c d p :
  trackDisjoint d → tracksDisjoint p → tracksDisjoint (pushTrack c d p).
Proof.
  unfold tracksDisjoint. simpl. intros Hd Hp.
  apply Forall_app. split; [done|]. by constructor.
Qed.

Lemma addPoints_loop_disjoint camsIdxs coord : ∀ idxs p p',
  tracksDisjoint p →
  addPoints_loop camsIdxs idxs coord p = Done p' →
  tracksDisjoint p'.
Proof.
  induction coord as [|c coord IH]; intros idxs p p' Hp; simpl.
  - intros [= <-]. done.
  - destruct idxs as [|idx idxs]; [discriminate|].
    destruct (vec_at _ idx) as [m|]; [|discriminate].
    destruct (m !! first camsIdxs) as [k1|]; [|discriminate].
    destruct (m !! second camsIdxs) as [k2|]; [|discriminate].
    apply IH. apply pushTrack_disjoint; [|done]. apply seedTrack_disjoint.
Qed.

Lemma addPointsViews_disjoint pointCoord : ∀ pointViews p p',
  Forall (λ v, dom (observedPart v) ## dom (unobservedPart v)) pointViews →
  tracksDisjoint p →
  addPointsViews pointCoord pointViews p = Done p' →
  tracksDisjoint p'.
Proof.
  induction pointCoord as [|c cs IH]; intros views p p' Hv Hp; simpl.
  - intros [= <-]. done.
  - destruct views as [|v views]; [discriminate|].
    inversion Hv; subst. apply IH; [done|].
    apply pushTrack_disjoint; done.
Qed.

Lemma inlierTrack_listed cps inliers T :
  inlierTrack cps inliers T → T ∈ cps.
Proof.
  intros (i & _ & [_ Hi]%vec_at_Some)%Exists_exists.
  by eapply list_elem_of_lookup_2.
Qed.

Lemma markCamAsReconstructedInliers_disjoint camIdx cps inliers p p' :
  tracksDisjoint p →
  markCamAsReconstructedInliers camIdx cps inliers p = Done p' →
  tracksDisjoint p'.
Proof.
  unfold markCamAsReconstructedInliers, tracksDisjoint. intros Hp Hrun.
  destruct (markInliers camIdx cps inliers (ptData_ p)) as [d1|d1|] eqn:E1;
    simpl in Hrun; try discriminate.
  destruct (eraseCam camIdx cps d1) as [d2|d2|] eqn:E2;
    simpl in Hrun; try discriminate.
  injection Hrun as <-. simpl.
  assert (length d1 = length (ptData_ p)) as Hl1.
  { eapply markInliers_length. by rewrite E1. }
  assert (length d2 = length d1) as Hl2.
  { eapply eraseCam_length. by rewrite E2. }
  destruct (eraseCam_tracks camIdx cps d1 d2) as [_ Htr]; [by rewrite E2|].
  apply Forall_lookup. intros t e2 Ht2.
  destruct (lookup_lt_is_Some_2 (ptData_ p) t) as [e He].
  { apply lookup_lt_Some in Ht2. lia. }
  destruct (markInliers_Done_tracks _ _ _ _ _ E1 _ _ He)
    as (e1 & He1 & Hto1 & Hin1 & Hout1).
  destruct (Htr _ _ He1) as (e2' & He2 & Hrec2 & Hto2).
  assert (e2' = e2) as -> by congruence.
  pose proof (proj1 (Forall_lookup _ _) Hp t e He) as Hd.
  destruct e as [rec toRec], e2 as [rec2 toRec2]. simpl in *. subst rec2.
  destruct (decide (inlierTrack cps inliers (Z.of_nat t))) as [Hin|Hno].
  - destruct (Hin1 Hin) as (k & Hk & ->).
    rewrite decide_True in Hto2 by (by eapply inlierTrack_listed).
    subst toRec2. rewrite Hto1. by apply promote_erase_disjoint.
  - rewrite (Hout1 Hno). rewrite Hto1 in Hto2. subst toRec2.
    case_decide; [by apply erase_disjoint|done].
Qed.

Lemma runOp_disjoint op p p' :
  splitsDisjoint op → tracksDisjoint p → runOp op p = Done p' →
  tracksDisjoint p'.
Proof.
  intros Hop Hp.
  destruct op as [pr idxs coord|cs views|keep|camIdx|camIdx cps inl]; simpl.
  - unfold addPoints. intros (q & Hq & Hf)%and_then_Done.
    destruct (filterOutOutliers _ _); [|discriminate].
    injection Hf as <-. unfold tracksDisjoint. simpl.
    by eapply addPoints_loop_disjoint.
  - by apply addPointsViews_disjoint.
  - unfold removePoints.
    destruct (filterVector keep (ptCoord_ p)); [|discriminate].
    destruct (filterVector keep (ptData_ p)) as [ds|] eqn:E; [|discriminate].
    intros [= <-]. unfold tracksDisjoint. simpl.
    by eapply filterVector_Forall.
  - unfold markCamAsReconstructed.
    pose proof (markCam_entries_disjoint camIdx (ptData_ p) Hp) as Hd.
    destruct (markCam_entries camIdx (ptData_ p)) as [d ok].
    destruct ok; [|discriminate]. intros [= <-]. exact Hd.
  - by apply markCamAsReconstructedInliers_disjoint.
Qed.

Lemma addPoints_loop_disjoint_state camsIdxs coord : ∀ idxs p p',
  tracksDisjoint p →
  stateOf (addPoints_loop camsIdxs idxs coord p) = Some p' →
  tracksDisjoint p'.
Proof.
  assert (∀ m, trackDisjoint (mkPointData m ∅)) as Hhalf.
  { intros m. apply trackDisjoint_alt. intros k. right. apply lookup_empty. }
  induction coord as [|c coord IH]; intros idxs p p' Hp; simpl.
  - intros [= <-]. done.
  - destruct idxs as [|idx idxs]; [discriminate|].
    destruct (vec_at _ idx) as [m|]; [|discriminate].
    destruct (m !! first camsIdxs) as [k1|];
      [|intros [= <-]; by apply pushTrack_disjoint].
    destruct (m !! second camsIdxs) as [k2|];
      [|intros [= <-]; by apply pushTrack_disjoint].
    apply IH. apply pushTrack_disjoint; [|done]. apply seedTrack_disjoint.
Qed.

Lemma addPointsViews_disjoint_state pointCoord : ∀ pointViews p p',
  Forall (λ v, dom (observedPart v) ## dom (unobservedPart v)) pointViews →
  tracksDisjoint p →
  stateOf (addPointsViews pointCoord pointViews p) = Some p' →
  tracksDisjoint p'.
Proof.
  induction pointCoord as [|c cs IH]; intros views p p' Hv Hp; simpl.
  - intros [= <-]. done.
  - destruct views as [|v views]; [discriminate|].
    inversion Hv; subst. apply IH; [done|].
    apply pushTrack_disjoint; done.
Qed.

(** The state a call leaves, on return or on a throw, has disjoint tracks,
    unless the call is the three-argument form and throws. *)
Lemma runOp_disjoint_state op p p' :
  splitsDisjoint op → tracksDisjoint p →
  stateOf (runOp op p) = Some p' →
  endsInInlierThrow [op] p = false →
  tracksDisjoint p'.
Proof.
  intros Hop Hp Hstate Hend.
  destruct op as [pr idxs coord|cs views|keep|camIdx|camIdx cps inl];
    simpl in Hstate.
  - unfold addPoints in Hstate.
    destruct (addPoints_loop pr idxs coord p) as [q|q|] eqn:E;
      simpl in Hstate; [| |discriminate].
    + assert (tracksDisjoint q) as Hq.
      { eapply addPoints_loop_disjoint_state; [exact Hp|]. by rewrite E. }
      destruct (filterOutOutliers _ _); [|discriminate].
      injection Hstate as <-. exact Hq.
    + injection Hstate as <-.
      eapply addPoints_loop_disjoint_state; [exact Hp|]. by rewrite E.
  - by eapply addPointsViews_disjoint_state.
  - unfold removePoints in Hstate.
    destruct (filterVector keep (ptCoord_ p)); [|discriminate].
    destruct (filterVector keep (ptData_ p)) as [ds|] eqn:E; [|discriminate].
    injection Hstate as <-. unfold tracksDisjoint. simpl.
    by eapply filterVector_Forall.
  - unfold markCamAsReconstructed in Hstate.
    pose proof (markCam_entries_disjoint camIdx (ptData_ p) Hp) as Hd.
    destruct (markCam_entries camIdx (ptData_ p)) as [d ok].
    destruct ok; injection Hstate as <-; exact Hd.
  - simpl in Hend.
    destruct (markCamAsReconstructedInliers camIdx cps inl p) as [q|q|] eqn:E;
      [|discriminate|discriminate].
    injection Hstate as <-.
    by eapply markCamAsReconstructedInliers_disjoint.
Qed.

(** C1, as amended.  From a store whose tracks all have disjoint
    [reconstructed] and [toReconstruct] key sets (the empty store is one),
    take any sequence of [addPoints] (both forms), [removePoints] and
    [markCamAsReconstructed] (both forms) in which every split handed to the
    bulk [addPoints] has disjoint parts.  In the state the sequence leaves,
    whether its last call returned or threw, the two key sets of every track
    are disjoint, unless that last call is the three-argument
    [markCamAsReconstructed] and it threw. *)
Theorem tracks_stay_disjoint (ops : list PointsOp) (p p' : Points)
  (Hstart : tracksDisjoint p)
  (Hsplits : Forall splitsDisjoint ops)
  (Hstate : stateOf (runOps ops p) = Some p')
  (Hend : endsInInlierThrow ops p = false) :
  tracksDisjoint p'.
Proof.
  revert p Hstart Hstate Hend.
  induction Hsplits as [|op ops Hop Hops IH]; intros p Hstart; simpl.
  - intros [= <-]. done.
  - intros Hstate Hend.
    destruct (runOp op p) as [q|q|] eqn:E; simpl in Hstate;
      [| |discriminate].
    + apply (IH q); [|done|done].
      eapply (runOp_disjoint_state op p); [done|done|by rewrite E|].
      simpl. by rewrite E.
    + injection Hstate as <-.
      eapply (runOp_disjoint_state op p); [done|done|by rewrite E|].
      simpl. rewrite E. exact Hend.
Qed.

(** A call of the three-argument form that throws at its second inlier
    leaves the first inlier track with the camera in both maps: the erasing
    loop has not run. *)
Example markCamAsReconstructed_inliers_throw_leaves_overlap :
  ∃ p', markCamAsReconstructedInliers 6 [0%Z; 2%Z] [1%Z; 0%Z] threeTracks
        = Thrown p'
    ∧ ¬ tracksDisjoint p'.
Proof.
  eexists. split; [vm_compute; reflexivity|].
  intros Hd. apply Forall_lookup with (i := 2) (x :=
    mkPointData {[0%Z := 3%Z; 6%Z := 4%Z]} {[5%Z := 9%Z; 6%Z := 4%Z]}) in Hd;
    [|vm_compute; reflexivity].
  destruct (proj1 (trackDisjoint_alt _) Hd 6%Z) as [E|E];
    vm_compute in E; discriminate.
Qed.

(** C1, as stated, fails, in two ways.  The bulk [addPoints] stores
    whatever split it is given, so a split with camera 1 in both parts makes
    a track whose two key sets meet.  And with disjoint splits only, a
    three-argument [markCamAsReconstructed] that throws at its second inlier
    leaves the first inlier track with the camera in both maps. *)
Lemma tracks_disjoint_fails_after_bulk_import :
  ¬ (∀ ops p, stateOf (runOps ops Points_empty) = Some p → tracksDisjoint p)
  ∧ ¬ (∀ ops p, Forall splitsDisjoint ops →
         stateOf (runOps ops Points_empty) = Some p → tracksDisjoint p).
Proof.
  split.
  - intros Hall.
    specialize (Hall
      [OpAddPointsViews [mkVector3d 0 0 0]
         [mkSplitNViewMatch {[1%Z := 0%Z]} {[1%Z := 5%Z]}]] _ eq_refl).
    apply Forall_inv in Hall.
    destruct (proj1 (trackDisjoint_alt _) Hall 1%Z) as [E|E]; simpl in E;
      rewrite lookup_singleton_eq in E; discriminate.
  - intros Hall.
    specialize (Hall
      [OpAddPointsViews [mkVector3d 0 0 0; mkVector3d 1 1 1]
         [mkSplitNViewMatch {[0%Z := 1%Z]} {[6%Z := 4%Z]};
          mkSplitNViewMatch {[0%Z := 2%Z]} ∅];
       OpMarkCamInliers 6 [0%Z; 1%Z] [0%Z; 1%Z]]
      (mkPoints [] [mkVector3d 0 0 0; mkVector3d 1 1 1]
         [mkPointData {[0%Z := 1%Z; 6%Z := 4%Z]} {[6%Z := 4%Z]};
          mkPointData {[0%Z := 2%Z]} ∅])).
    assert (tracksDisjoint
              (mkPoints [] [mkVector3d 0 0 0; mkVector3d 1 1 1]
                 [mkPointData {[0%Z := 1%Z; 6%Z := 4%Z]} {[6%Z := 4%Z]};
                  mkPointData {[0%Z := 2%Z]} ∅])) as Hd.
    { apply Hall; [|vm_compute; reflexivity].
      repeat constructor; simpl.
      - rewrite !dom_singleton_L. apply disjoint_singleton_l.
        by intros ?%elem_of_singleton.
      - rewrite dom_empty_L. apply disjoint_empty_r. }
    apply Forall_inv in Hd.
    destruct (proj1 (trackDisjoint_alt _) Hd 6%Z) as [E|E];
      vm_compute in E; discriminate.
Qed.

(** ** Floating-point facts *)

Lemma Prim2SF_zero : Prim2SF 0 = S754_zero false.
Proof. reflexivity. Qed.

Lemma eqb_zero_inv (x : float) :
  (x =? 0)%float = true → ∃ s, Prim2SF x = S754_zero s.
Proof.
  rewrite FloatAxioms.eqb_spec, Prim2SF_zero.
  destruct (Prim2SF x) as [s|s| |s m e]; simpl; eauto; try discriminate;
    destruct s; discriminate.
Qed.

(** A value that compares equal to zero, multiplied by a finite number,
    compares equal to zero. *)
Lemma mul_zero_finite (x y : float) s m e :
  (x =? 0)%float = true → Prim2SF y = S754_finite s m e →
  (x * y =? 0)%float = true.
Proof.
  intros [sx Hx]%eqb_zero_inv Hy.
  rewrite FloatAxioms.eqb_spec, mul_spec, Hx, Hy, Prim2SF_zero. reflexivity.
Qed.

Lemma mul_zero_zero (x : float) :
  (x =? 0)%float = true → (x * 0 =? 0)%float = true.
Proof.
  intros [sx Hx]%eqb_zero_inv.
  rewrite FloatAxioms.eqb_spec, mul_spec, Hx, Prim2SF_zero. reflexivity.
Qed.

(** Division by zero gives an infinity or a NaN, never a finite number. *)
Lemma div_zero_not_finite (x : float) : is_finite (x / 0) = false.
Proof.
  unfold is_finite, is_nan, is_infinity.
  rewrite !FloatAxioms.eqb_spec, abs_spec, div_spec, Prim2SF_zero.
  destruct (Prim2SF x) as [s|s| |s m e]; try destruct s; reflexivity.
Qed.

(** ** The parameter vector of a camera *)

(** C6, as amended.  For a standard or radial camera and a vector [p] of its
    number of parameters, [setParams(p)] is defined and [params] then gives a
    vector of the same length whose entries from the fourth on (center,
    focal length and, for the radial camera, the two radial coefficients)
    are those of [p].  The three rotation entries are recomputed from the
    stored angle and axis: with [n] the squared norm of the rotation entries
    of [p], they compare equal to zero when [n == 0], and are
    [sqrt n * (r / sqrt n)] for each rotation entry [r] of [p] otherwise. *)
Theorem setParams_then_params `{Externals} (c : ParamCamera) (p : list float)
  (Hlen : length p = numParams c) :
  ∃ c' x y z,
    virtualSetParams p c = Some c'
    ∧ take 3 p = [x; y; z]
    ∧ length (virtualParams c') = length p
    ∧ drop 3 (virtualParams c') = drop 3 p
    ∧ (let n := squaredNorm (mkVector3d x y z) in
       if (n =? 0)%float
       then Forall (λ r, (r =? 0)%float = true) (take 3 (virtualParams c'))
       else take 3 (virtualParams c')
            = [PrimFloat.sqrt n * (x / PrimFloat.sqrt n);
               PrimFloat.sqrt n * (y / PrimFloat.sqrt n);
               PrimFloat.sqrt n * (z / PrimFloat.sqrt n)]%float).
Proof.
  assert (∀ n : float, (n =? 0)%float = true →
            Forall (λ r, (r =? 0)%float = true) [n * 1; n * 0; n * 0]%float)
    as Hzero.
  { intros n Hn. repeat constructor.
    - eapply mul_zero_finite; [done|reflexivity].
    - by apply mul_zero_zero.
    - by apply mul_zero_zero. }
  destruct c as [s|r]; simpl in Hlen.
  - destruct p as [|x [|y [|z [|c0 [|c1 [|c2 [|f [|? ?]]]]]]]];
      try discriminate.
    unfold virtualSetParams, setParams, map3. simpl.
    eexists _, x, y, z. split; [reflexivity|]. split; [done|].
    unfold params. simpl.
    destruct (squaredNorm (mkVector3d x y z) =? 0)%float eqn:En; simpl.
    + split; [done|]. split; [done|]. by apply Hzero.
    + done.
  - destruct p as [|x [|y [|z [|c0 [|c1 [|c2 [|f [|r0 [|r1 [|? ?]]]]]]]]]];
      try discriminate.
    unfold virtualSetParams, setParamsRadial, setParams, map3. simpl.
    eexists _, x, y, z. split; [reflexivity|]. split; [done|].
    unfold paramsRadial, params. simpl.
    destruct (squaredNorm (mkVector3d x y z) =? 0)%float eqn:En; simpl.
    + split; [done|]. split; [done|]. by apply Hzero.
    + done.
Qed.

(** C6, as stated, fails: the rotation [(2^-600, 0, 0)] has a squared norm
    that underflows to zero, so the camera stores angle 0 about the x axis
    and [params] gives back a zero rotation. *)
Lemma setParams_params_not_exact_inverse :
  ¬ (∀ (c : StandardCamera) (p : list float),
       length p = nParams_ →
       ∃ c', setParams p c = Some c' ∧ params c' = p).
Proof.
  intros Hall.
  destruct (Hall vgaCamera [0x1p-600; 0; 0; 0; 0; 0; 1]%float eq_refl)
    as (c' & Hset & Hpar).
  apply (f_equal (λ o, match o with Some c => params c | None => [] end))
    in Hset.
  rewrite Hpar in Hset.
  apply (f_equal (λ l, (nth 0 l 1 =? 0)%float)) in Hset.
  vm_compute in Hset. discriminate.
Qed.

(** ** Normalised keys of a camera whose focal length was never set *)

Section Uncalibrated.
Context `{Externals}.

Lemma StandardCamera_new_f imgFilename rot0 :
  f_ (StandardCamera_new imgFilename rot0) = 0%float.
Proof. reflexivity. Qed.

Lemma runCamOp_f op c c' : runCamOp op c = Some c' → f_ c' = f_ c.
Proof.
  destruct op; simpl.
  - destruct (reserveFeatures num dim (base c)); [|discriminate].
    by intros [= <-].
  - destruct (addFeature x y descr (base c)); [|discriminate].
    by intros [= <-].
  - by intros [= <-].
  - by intros [= <-].
  - by intros [= <-].
  - by intros [= <-].
  - unfold setParamsConstraints. case_decide; [|discriminate].
    by intros [= <-].
Qed.

Lemma runCamOps_f ops : ∀ c c', runCamOps ops c = Some c' → f_ c' = f_ c.
Proof.
  induction ops as [|op ops IH]; intros c c'; simpl.
  - by intros [= <-].
  - destruct (runCamOp op c) as [c1|] eqn:E; [|discriminate].
    intros Hrun. rewrite (IH _ _ Hrun). by eapply runCamOp_f.
Qed.

Lemma runRadialOps_f ops : ∀ c c',
  runRadialOps ops c = Some c' → f_ (standard c') = f_ (standard c).
Proof.
  induction ops as [|op ops IH]; intros c c'; simpl.
  - by intros [= <-].
  - destruct (runRadialOp op c) as [c1|] eqn:E; [|discriminate].
    intros Hrun. rewrite (IH _ _ Hrun).
    destruct op as [op|cs ws]; simpl in E.
    + destruct (runCamOp op (standard c)) as [s1|] eqn:E1; [|discriminate].
      injection E as <-. simpl. by eapply runCamOp_f.
    + by injection E as <-.
Qed.

(** C10.  A standard camera, and a radial camera, that came out of its
    constructor and on which only members other than [setFocal] and
    [setParams] were called, has focal length 0; for a key that exists,
    [StandardCamera::keyNormalized] therefore divides the key minus the
    principal point by zero, and both coefficients of the quotient are an
    infinity or a NaN.  The radial camera applies its undistortion to that
    quotient. *)
Theorem keyNormalized_divides_by_zero (imgFilename : string)
  (rot0 : AngleAxisd) (ops : list CamOp) (radialOps : list RadialOp)
  (c : StandardCamera) (r : StandardCameraRadial) (i : Z) (k kr : Vector2d)
  (Hc : runCamOps ops (StandardCamera_new imgFilename rot0) = Some c)
  (Hk : key (base c) i = Some k)
  (Hr : runRadialOps radialOps (StandardCameraRadial_new imgFilename rot0)
        = Some r)
  (Hkr : key (base (standard r)) i = Some kr) :
  (f_ c = 0%float
   ∧ ∃ v, keyNormalized c i = Some v
       ∧ v = div2 (sub2 k (x0_ c)) 0
       ∧ is_finite (v2x v) = false ∧ is_finite (v2y v) = false)
  ∧ (f_ (standard r) = 0%float
     ∧ ∃ v, keyNormalized (standard r) i = Some v
         ∧ v = div2 (sub2 kr (x0_ (standard r))) 0
         ∧ is_finite (v2x v) = false ∧ is_finite (v2y v) = false
         ∧ keyNormalizedRadial r i = Some (undistort (invRadParams_ r) v)).
Proof.
  assert (f_ c = 0%float) as Hfc.
  { rewrite (runCamOps_f _ _ _ Hc). apply StandardCamera_new_f. }
  assert (f_ (standard r) = 0%float) as Hfr.
  { rewrite (runRadialOps_f _ _ _ Hr). reflexivity. }
  split.
  - split; [done|]. unfold keyNormalized. rewrite Hk, Hfc.
    eexists. split; [reflexivity|]. split; [done|].
    split; apply div_zero_not_finite.
  - split; [done|]. unfold keyNormalizedRadial, keyNormalized.
    rewrite Hkr, Hfr.
    eexists. split; [reflexivity|]. split; [done|].
    split; [apply div_zero_not_finite|].
    split; [apply div_zero_not_finite|done].
Qed.

End Uncalibrated.

(** ** Copying a dataset *)

Section DatasetCopy.
Context {CameraPair : Type}.

Lemma clone_Some l (h : heap) o :
  h !! l = Some o → clone l h = Some (fresh (dom h), <[fresh (dom h) := o]> h).
Proof. intros Hl. unfold clone. rewrite Hl. by destruct o. Qed.

(** The loop of [copyIn] on live cameras: it appends one new object per
    camera of the other dataset, each at an address that was not in use and
    holding a copy of that camera, and leaves every old object as it was. *)
Lemma cloneInto_appends_clones others : ∀ cams (h : heap),
  (∀ l, l ∈ others → is_Some (h !! l)) →
  ∃ news h',
    cloneInto others cams h = Some (cams ++ news, h')
    ∧ length news = length others
    ∧ h ⊆ h'
    ∧ NoDup news
    ∧ ∀ i l', news !! i = Some l' →
        (l' ∉ dom h) ∧ ∃ l, others !! i = Some l ∧ h' !! l' = h !! l.
Proof.
  induction others as [|l others IH]; intros cams h Hlive; simpl.
  - exists [], h. rewrite app_nil_r. split; [done|]. split; [done|].
    split; [done|]. split; [constructor|]. intros i l' Hi. done.
  - destruct (Hlive l) as [o Ho]; [left|].
    rewrite (clone_Some _ _ _ Ho).
    set (l1 := fresh (dom h)).
    assert (h !! l1 = None) as Hfresh.
    { apply not_elem_of_dom. apply is_fresh. }
    destruct (IH (cams ++ [l1]) (<[l1 := o]> h))
      as (news & h' & Hrun & Hlen & Hsub & Hnd & Hnews).
    { intros l2 Hl2. destruct (Hlive l2) as [o2 Ho2]; [by right|].
      exists o2. rewrite lookup_insert_ne; [done|]. congruence. }
    exists (l1 :: news), h'. rewrite Hrun, <- app_assoc. simpl.
    split; [done|]. split; [by rewrite Hlen|].
    assert (h ⊆ h') as Hsub'.
    { etrans; [|exact Hsub]. by apply insert_subseteq. }
    split; [done|]. split.
    + constructor; [|done]. intros (i & Hi)%list_elem_of_lookup_1.
      pose proof (Hnews i l1 Hi) as [Hout _]. apply Hout.
      apply elem_of_dom. exists o. apply lookup_insert_eq.
    + intros i l' Hi. destruct i as [|i]; simpl in *.
      * injection Hi as <-. split; [by apply not_elem_of_dom|].
        exists l. split; [done|]. rewrite Ho.
        eapply lookup_weaken; [|exact Hsub]. apply lookup_insert_eq.
      * pose proof (Hnews i l' Hi) as (Hout & l2 & Hl2 & Heq).
        split.
        { intros Hin. apply Hout. rewrite dom_insert_L.
          apply elem_of_union. by right. }
        exists l2. split; [done|]. rewrite Heq.
        apply lookup_insert_ne.
        destruct (Hlive l2) as [o2 Ho2];
          [right; by eapply list_elem_of_lookup_2|]. congruence.
Qed.

(** X7.  The copy constructor does what C9 says: the new dataset has one new
    camera object per camera of the source, a copy of it, and the other
    members are those of the source. *)
Lemma Dataset_copy_clones (o : Dataset CameraPair) (h : heap) :
  (∀ l, l ∈ cams_ o → is_Some (h !! l)) →
  ∃ d h',
    Dataset_copy o h = Some (d, h')
    ∧ dir_ d = dir_ o ∧ pairs_ d = pairs_ o
    ∧ reconstructedCams_ d = reconstructedCams_ o
    ∧ points_ d = points_ o
    ∧ length (cams_ d) = length (cams_ o)
    ∧ h ⊆ h' ∧ NoDup (cams_ d)
    ∧ ∀ i l', cams_ d !! i = Some l' →
        (l' ∉ dom h) ∧ ∃ l, cams_ o !! i = Some l ∧ h' !! l' = h !! l.
Proof.
  intros Hlive.
  destruct (cloneInto_appends_clones (cams_ o) [] h Hlive)
    as (news & h' & Hrun & Hlen & Hsub & Hnd & Hnews).
  simpl in Hrun.
  unfold Dataset_copy, copyIn. simpl. rewrite Hrun.
  eexists _, h'. split; [reflexivity|]. simpl.
  do 4 (split; [done|]). split; [done|]. split; [done|]. split; done.
Qed.

End DatasetCopy.

(** C9.  The assignment [datasetA = datasetB] leaves [datasetA] with two
    cameras, its old camera followed by a copy of the camera of [datasetB],
    where [datasetB] has one: the copied cameras are appended to the cameras
    the target already owns.  The other members are those of [datasetB]. *)
Theorem Dataset_assign_keeps_the_cameras_of_the_target :
  ∃ d h', Dataset_assign datasetB datasetA twoCameraHeap = Some (d, h')
    ∧ cams_ d = [1%positive; 3%positive]
    ∧ h' !! 1%positive = Some (ObjCamera cameraA)
    ∧ h' !! 3%positive = Some (ObjCamera cameraB)
    ∧ numCams d = 2%Z ∧ numCams datasetB = 1%Z
    ∧ dir_ d = dir_ datasetB
    ∧ reconstructedCams_ d = reconstructedCams_ datasetB.
Proof.
  eexists _, _. split; [vm_compute; reflexivity|].
  repeat split; vm_compute; reflexivity.
Qed.

(** ** The batch driver of the detector *)

Section BatchDetection.
Context `{SiftGPUApi}.

Lemma initializeSiftGPU_fails opt maxWidth maxHeight sift :
  (CreateContextGL (setParamsSiftGPU opt sift)).1 ≠ SIFTGPU_FULL_SUPPORTED →
  (initializeSiftGPU opt maxWidth maxHeight sift).1 = false.
Proof.
  intros Hcode. unfold initializeSiftGPU.
  destruct (CreateContextGL (setParamsSiftGPU opt sift)) as [code sift2].
  simpl in Hcode. by rewrite decide_True.
Qed.

(** With both pointers set, the loop runs the detector on each camera and
    then calls the callback with the number of cameras finished before that
    one. *)
Lemma detectLoop_events cams : ∀ sift fn obj done,
  (detectLoop sift cams (Some fn) (Some obj) done).2
  = mjoin (imap (λ k cam, [EvRunSIFT (imgFilename_ cam);
                            EvCallback fn obj (done + Z.of_nat k)]) cams)
  ∧ length (detectLoop sift cams (Some fn) (Some obj) done).1 = length cams.
Proof.
  induction cams as [|cam cams IH]; intros sift fn obj n; [by simpl|].
  simpl. destruct (detectSiftGPU_cam sift cam) as [sift' cam'].
  specialize (IH sift' fn obj (n + 1)%Z).
  destruct (detectLoop sift' cams (Some fn) (Some obj) (n + 1))
    as [rest evs]. simpl in *.
  destruct IH as [-> ->]. split; [|done].
  rewrite Z.add_0_r. do 2 f_equal. f_equal.
  apply imap_ext. intros k c _. simpl. do 3 f_equal. lia.
Qed.

(** With a null function pointer or a null object pointer, no callback is
    called. *)
Lemma detectLoop_no_callback cams : ∀ sift fn obj done,
  fn = None ∨ obj = None →
  callbackCounts (detectLoop sift cams fn obj done).2 = [].
Proof.
  induction cams as [|cam cams IH]; intros sift fn obj n Hnull; [by simpl|].
  simpl. destruct (detectSiftGPU_cam sift cam) as [sift' cam'].
  specialize (IH sift' fn obj (n + 1)%Z Hnull).
  destruct (detectLoop sift' cams fn obj (n + 1)) as [rest evs].
  simpl in *. destruct Hnull as [-> | ->]; [|destruct fn]; simpl; done.
Qed.

(** The batch function with a context that initialises: one entry for the
    detector per camera, each followed by one callback call when both
    pointers are set, and no callback call when one of them is null. *)
Lemma detectSiftGPU_events opt cams callbackFunction callbackObjectPtr :
  (CreateContextGL (setParamsSiftGPU opt (CreateNewSiftGPU 1))).1
  = SIFTGPU_FULL_SUPPORTED →
  match callbackFunction, callbackObjectPtr with
  | Some fn, Some obj =>
      (detectSiftGPU opt cams callbackFunction callbackObjectPtr).2
      = mjoin (imap (λ k cam, [EvRunSIFT (imgFilename_ cam);
                                EvCallback fn obj (Z.of_nat k)]) cams)
  | _, _ =>
      callbackCounts
        (detectSiftGPU opt cams callbackFunction callbackObjectPtr).2 = []
  end.
Proof.
  intros Hcode. unfold detectSiftGPU, initializeSiftGPU.
  destruct (CreateContextGL (setParamsSiftGPU opt (CreateNewSiftGPU 1)))
    as [code sift2]. simpl in Hcode. subst code.
  rewrite decide_False by (intros Hne; by apply Hne). simpl.
  destruct callbackFunction as [fn|], callbackObjectPtr as [obj|].
  - apply detectLoop_events.
  - apply detectLoop_no_callback. by right.
  - apply detectLoop_no_callback. by left.
  - apply detectLoop_no_callback. by left.
Qed.

(** C8.  When the creation of the detector context does not report full
    support, the batch [detectSiftGPU] gives back the cameras as they were
    and does nothing a caller can observe: the detector is run on no image
    and the callback is not called.  Cameras that had no keys have none
    afterwards.  The function has no other result. *)
Theorem detectSiftGPU_abandons_the_batch_when_the_context_fails
  (opt : OptionsSIFTGPU) (cams : list Camera)
  (callbackFunction callbackObjectPtr : option positive)
  (Hfail : (CreateContextGL (setParamsSiftGPU opt (CreateNewSiftGPU 1))).1
           ≠ SIFTGPU_FULL_SUPPORTED) :
  detectSiftGPU opt cams callbackFunction callbackObjectPtr = (cams, [])
  ∧ (Forall (λ c, keys_ c = []) cams →
     Forall (λ c, keys_ c = [])
       (detectSiftGPU opt cams callbackFunction callbackObjectPtr).1).
Proof.
  assert (detectSiftGPU opt cams callbackFunction callbackObjectPtr
          = (cams, [])) as Heq.
  { unfold detectSiftGPU.
    match goal with
    | |- context [initializeSiftGPU opt ?w ?h ?s] =>
        pose proof (initializeSiftGPU_fails opt w h s Hfail) as Hinit;
        destruct (initializeSiftGPU opt w h s) as [success sift']
    end.
    simpl in Hinit. subst success. done. }
  split; [done|]. by rewrite Heq.
Qed.

End BatchDetection.

(** C7.  With a working detector, two cameras and both pointers set, the
    batch [detectSiftGPU] calls the callback once after each camera, with 0
    after the first camera is done and with 1 after the second: the counter
    is incremented after the call, so the callback never receives the number
    of cameras completed. *)
Theorem detectSiftGPU_reports_count_before_increment :
  @detectSiftGPU (stubSiftGPU 1) someOptions [cameraA; cameraB]
    (Some 1%positive) (Some 2%positive)
  = ([cameraA; cameraB],
     [EvRunSIFT "a.jpg"; EvCallback 1 2 0;
      EvRunSIFT "b.jpg"; EvCallback 1 2 1]).
Proof. reflexivity. Qed.

(** ** The theorems at concrete inputs *)

(** The scenario of the specification: seeding from the match with the pair
    of cameras 0 and 1. *)
Example addPoints_scenario :
  addPoints pair01 [0%Z] [origin] pendingStore
  = Done (mkPoints [] [origin]
            [mkPointData {[0%Z := 10%Z; 1%Z := 11%Z]} {[2%Z := 12%Z]}]).
Proof. vm_compute. reflexivity. Qed.

Lemma addPoints_seeds_from_pending_matches_witness :
  ∃ p' d, addPoints pair01 [0%Z] [origin] pendingStore = Done p'
    ∧ ptData_ p' !! 0 = Some d
    ∧ reconstructed d !! 0%Z = Some 10%Z
    ∧ reconstructed d !! 1%Z = Some 11%Z
    ∧ reconstructed d !! 2%Z = None
    ∧ toReconstruct d !! 2%Z = Some 12%Z
    ∧ toReconstruct d !! 0%Z = None
    ∧ matchesToReconstruct_ p' = [].
Proof.
  destruct (addPoints_seeds_from_pending_matches pair01 [0%Z] [origin]
              pendingStore) as (p' & Hrun & _ & _ & _ & Htracks & Hbuf).
  - simpl. lia.
  - intros idx Hin. apply list_elem_of_singleton in Hin. subst idx.
    exists threeViewMatch. split; [reflexivity|].
    split; [exists 10%Z|exists 11%Z]; reflexivity.
  - destruct (Htracks 0 0%Z threeViewMatch) as (d & Hd & Hrec & Hto).
    + simpl. lia.
    + reflexivity.
    + reflexivity.
    + exists p', d. split; [exact Hrun|]. split; [exact Hd|].
      rewrite !Hrec, !Hto. rewrite Hbuf.
      repeat split; reflexivity.
Defined.

Lemma removePoints_compacts_in_lock_step_witness :
  ∃ p', removePoints [true; false; true] threeTracks = Done p'
    ∧ ptCoord_ p' !! 1 = Some (mkVector3d 2 2 2)
    ∧ ptData_ p' !! 1
      = Some (mkPointData {[0%Z := 3%Z]} {[5%Z := 9%Z; 6%Z := 4%Z]})
    ∧ length (ptCoord_ p') = 2
    ∧ ∀ ops q, stateOf (runOps ops threeTracks) = Some q → sizesAgree q.
Proof.
  destruct (removePoints_compacts_in_lock_step threeTracks [true; false; true])
    as [(p' & Hrun & _ & Hlen & _ & Hkept & _) Hsizes].
  - reflexivity.
  - reflexivity.
  - exists p'. split; [exact Hrun|].
    destruct (Hkept 2 eq_refl) as [Hc Hd]. simpl in Hc, Hd.
    split; [exact Hc|]. split; [exact Hd|]. split; [exact Hlen|exact Hsizes].
Defined.

(** Registering camera 5 with the first two tracks as candidates and the
    first of them as the only inlier. *)
Example markCamAsReconstructed_inliers_scenario :
  markCamAsReconstructedInliers 5 [0%Z; 1%Z] [0%Z] threeTracks
  = Done (mkPoints []
            [origin; mkVector3d 1 1 1; mkVector3d 2 2 2]
            [mkPointData {[0%Z := 1%Z; 5%Z := 7%Z]} ∅;
             mkPointData {[0%Z := 2%Z]} ∅;
             mkPointData {[0%Z := 3%Z]} {[5%Z := 9%Z; 6%Z := 4%Z]}]).
Proof. vm_compute. reflexivity. Qed.


Lemma tracks_stay_disjoint_witness :
  runOps (storeRun ++ [OpMarkCam 9]) pendingStore = Thrown storeAfterRun
  ∧ tracksDisjoint storeAfterRun.
Proof.
  assert (runOps (storeRun ++ [OpMarkCam 9]) pendingStore
          = Thrown storeAfterRun) as Hrun
    by (vm_compute; reflexivity).
  split; [exact Hrun|].
  apply (tracks_stay_disjoint (storeRun ++ [OpMarkCam 9]) pendingStore
           storeAfterRun).
  - constructor.
  - repeat constructor. simpl. repeat constructor.
    apply elem_of_disjoint. intros k Hk1 Hk2.
    rewrite dom_singleton_L in Hk1, Hk2.
    apply elem_of_singleton in Hk1, Hk2. congruence.
  - rewrite Hrun. reflexivity.
  - vm_compute. reflexivity.
Defined.

Lemma setParams_then_params_witness :
  ∃ c', @virtualSetParams vgaExternals [3; 0; 4; 1; 2; 3; 500; 0.5; 0.25]%float
          (PRadial (@StandardCameraRadial_new vgaExternals "img.jpg"
                      (mkAngleAxisd 0 UnitX)))
        = Some c'
    ∧ drop 3 (virtualParams c') = [1; 2; 3; 500; 0.5; 0.25]%float
    ∧ take 3 (virtualParams c') = [3; 0; 4]%float.
Proof.
  destruct (@setParams_then_params vgaExternals
              (PRadial (@StandardCameraRadial_new vgaExternals "img.jpg"
                          (mkAngleAxisd 0 UnitX)))
              [3; 0; 4; 1; 2; 3; 500; 0.5; 0.25]%float)
    as (c' & x & y & z & Hset & Htake & _ & Hdrop & Hrot).
  - reflexivity.
  - exists c'. split; [exact Hset|]. split; [exact Hdrop|].
    injection Htake as <- <- <-. exact Hrot.
Defined.

Lemma keyNormalized_divides_by_zero_witness :
  ∃ c r,
    @runCamOps vgaExternals oneKeyOps
      (@StandardCamera_new vgaExternals "img.jpg" (mkAngleAxisd 0 UnitX))
    = Some c
    ∧ @runRadialOps vgaExternals (OpInherited <$> oneKeyOps)
        (@StandardCameraRadial_new vgaExternals "img.jpg"
           (mkAngleAxisd 0 UnitX))
      = Some r
    ∧ keyNormalized c 0 = Some (mkVector2d neg_infinity neg_infinity)
    ∧ f_ (standard r) = 0%float.
Proof.
  eexists _, _. split; [vm_compute; reflexivity|].
  split; [vm_compute; reflexivity|].
  match goal with
  | |- keyNormalized ?c _ = _ ∧ f_ (standard ?r) = _ =>
      destruct (@keyNormalized_divides_by_zero vgaExternals "img.jpg"
                  (mkAngleAxisd 0 UnitX) oneKeyOps (OpInherited <$> oneKeyOps)
                  c r 0%Z (mkVector2d 3 4) (mkVector2d 3 4))
        as [(_ & v & Hv & -> & _) (Hf & _)]
  end.
  - vm_compute. reflexivity.
  - reflexivity.
  - vm_compute. reflexivity.
  - reflexivity.
  - split; [|exact Hf]. rewrite Hv. vm_compute. reflexivity.
Defined.

Lemma detectSiftGPU_abandons_the_batch_witness :
  @detectSiftGPU (stubSiftGPU 0) someOptions [cameraA; cameraB; cameraA]
    (Some 1%positive) (Some 2%positive)
  = ([cameraA; cameraB; cameraA], []).
Proof.
  apply (@detectSiftGPU_abandons_the_batch_when_the_context_fails
           (stubSiftGPU 0) someOptions [cameraA; cameraB; cameraA]
           (Some 1%positive) (Some 2%positive)).
  simpl. lia.
Defined.


(** * Further properties of the track store *)

Lemma withPtData_same p : withPtData p (ptData_ p) = p.
Proof. by destruct p. Qed.

(** X1.  On a store in which every track has camera [camIdx] pending (the
    empty store is one), the one-argument [markCamAsReconstructed] returns;
    it leaves the pending buffer, the coordinates and the number of tracks
    as they were, and in every track the camera is emplaced into
    [reconstructed] with its pending key index and erased from
    [toReconstruct]. *)
Theorem markCamAsReconstructed_promotes_when_all_pending (camIdx : Z)
  (p : Points)
  (Hall : Forall (λ e, is_Some (toReconstruct e !! camIdx)) (ptData_ p)) :
  ∃ p', markCamAsReconstructed camIdx p = Done p'
    ∧ matchesToReconstruct_ p' = matchesToReconstruct_ p
    ∧ ptCoord_ p' = ptCoord_ p
    ∧ length (ptData_ p') = length (ptData_ p)
    ∧ ∀ t e, ptData_ p !! t = Some e →
        ∃ e' k, ptData_ p' !! t = Some e'
          ∧ toReconstruct e !! camIdx = Some k
          ∧ reconstructed e' = emplace camIdx k (reconstructed e)
          ∧ toReconstruct e' = delete camIdx (toReconstruct e).
Proof.
  unfold markCamAsReconstructed.
  rewrite (markCam_entries_all_pending _ _ Hall).
  eexists. split; [reflexivity|]. simpl.
  split; [done|]. split; [done|]. split; [by rewrite length_fmap|].
  intros t e Ht. rewrite list_lookup_fmap, Ht. simpl.
  destruct (proj1 (Forall_lookup _ _) Hall t e Ht) as [k Hk].
  eexists _, k. split; [reflexivity|]. rewrite Hk. simpl. done.
Qed.

Lemma markCamAsReconstructed_promotes_witness :
  ∃ p', markCamAsReconstructed 5 threeTracks = Done p'
    ∧ ptData_ p' !! 2
      = Some (mkPointData {[0%Z := 3%Z; 5%Z := 9%Z]} {[6%Z := 4%Z]}).
Proof.
  destruct (markCamAsReconstructed_promotes_when_all_pending 5 threeTracks)
    as (p' & Hrun & _ & _ & _ & Htracks).
  - repeat constructor; eexists; reflexivity.
  - exists p'. split; [exact Hrun|].
    destruct (Htracks 2 _ eq_refl) as (e' & k & He' & Hk & Hrec & Hto).
    rewrite He'. f_equal. destruct e' as [rec toRec]. simpl in *.
    injection Hk as <-. subst. f_equal; vm_compute; reflexivity.
Defined.

Lemma markCam_entries_stops camIdx pre e post :
  Forall (λ e, is_Some (toReconstruct e !! camIdx)) pre →
  toReconstruct e !! camIdx = None →
  markCam_entries camIdx (pre ++ e :: post)
  = (((λ e, promoteCam camIdx (default 0%Z (toReconstruct e !! camIdx)) e)
        <$> pre) ++ e :: post, false).
Proof.
  intros Hpre He. induction Hpre as [|e0 pre [k Hk] Hpre IH]; simpl.
  - by rewrite He.
  - rewrite Hk, IH. done.
Qed.

(** X2.  When some track lacks camera [camIdx] in [toReconstruct], the
    one-argument [markCamAsReconstructed] throws at the first such track:
    the tracks before it are left promoted, that track and all later ones are
    untouched (later tracks keep the camera pending), and the buffer and the
    coordinates are as they were. *)
Theorem markCamAsReconstructed_throws_at_first_track_without_camera
  (camIdx : Z) (p : Points) (pre post : list PointData) (e : PointData)
  (Hsplit : ptData_ p = pre ++ e :: post)
  (Hpre : Forall (λ e, is_Some (toReconstruct e !! camIdx)) pre)
  (He : toReconstruct e !! camIdx = None) :
  ∃ pre', markCamAsReconstructed camIdx p
          = Thrown (mkPoints (matchesToReconstruct_ p) (ptCoord_ p)
                      (pre' ++ e :: post))
    ∧ length pre' = length pre
    ∧ ∀ t e0, pre !! t = Some e0 →
        ∃ k, toReconstruct e0 !! camIdx = Some k
             ∧ pre' !! t = Some (promoteCam camIdx k e0).
Proof.
  unfold markCamAsReconstructed.
  rewrite Hsplit, (markCam_entries_stops _ _ _ _ Hpre He).
  eexists. split; [reflexivity|]. split; [by rewrite length_fmap|].
  intros t e0 Ht. rewrite list_lookup_fmap, Ht. simpl.
  destruct (proj1 (Forall_lookup _ _) Hpre t e0 Ht) as [k Hk].
  exists k. by rewrite Hk.
Qed.

Lemma markCamAsReconstructed_throws_at_first_witness :
  ∃ pre', markCamAsReconstructed 6 threeTracks
          = Thrown (mkPoints [] (ptCoord_ threeTracks)
                      (pre' ++ ptData_ threeTracks))
    ∧ length pre' = 0.
Proof.
  destruct (markCamAsReconstructed_throws_at_first_track_without_camera 6
              threeTracks []
              [mkPointData {[0%Z := 2%Z]} {[5%Z := 8%Z]};
               mkPointData {[0%Z := 3%Z]} {[5%Z := 9%Z; 6%Z := 4%Z]}]
              (mkPointData {[0%Z := 1%Z]} {[5%Z := 7%Z]}))
    as (pre' & Hrun & Hlen & _).
  - reflexivity.
  - constructor.
  - reflexivity.
  - exists pre'. split; [exact Hrun|exact Hlen].
Defined.

(** X3.  A second one-argument registration of the same camera on a store
    that has tracks does not return: after [markCamAsReconstructed(camIdx)]
    returned, no track has the camera pending, so the same call throws at the
    first track and leaves the store as it is. *)
Theorem markCamAsReconstructed_twice_throws (camIdx : Z) (p p' : Points)
  (Hfirst : markCamAsReconstructed camIdx p = Done p')
  (Htracks : ptData_ p ≠ []) :
  markCamAsReconstructed camIdx p' = Thrown p'.
Proof.
  unfold markCamAsReconstructed in Hfirst.
  destruct (ptData_ p) as [|e rest] eqn:Hd; [done|]. simpl in Hfirst.
  destruct (toReconstruct e !! camIdx) as [k|] eqn:Hk; [|discriminate].
  destruct (markCam_entries camIdx rest) as [rest' ok].
  destruct ok; [|discriminate]. injection Hfirst as <-.
  unfold markCamAsReconstructed. simpl.
  rewrite lookup_delete_eq. done.
Qed.

Lemma markCamAsReconstructed_twice_throws_witness :
  ∃ p', markCamAsReconstructed 5 threeTracks = Done p'
    ∧ markCamAsReconstructed 5 p' = Thrown p'.
Proof.
  eexists. split; [vm_compute; reflexivity|].
  apply (markCamAsReconstructed_twice_throws 5 threeTracks).
  - vm_compute. reflexivity.
  - discriminate.
Defined.

Lemma camMoved_refl camIdx e : camMoved camIdx e e.
Proof. unfold camMoved. naive_solver. Qed.

Lemma camMoved_trans camIdx e1 e2 e3 :
  camMoved camIdx e1 e2 → camMoved camIdx e2 e3 → camMoved camIdx e1 e3.
Proof.
  intros (Ha & Hb & Hc & Hd) (Ha' & Hb' & Hc' & Hd').
  split; [|split; [|split]].
  - intros cam Hne. destruct (Ha cam Hne) as [<- <-]. by apply Ha'.
  - intros k Hk. by apply Hb', Hb.
  - intros k Hk. destruct (Hc' k Hk) as [H2|H2]; [by apply Hc|].
    right. by apply Hd.
  - intros k Hk. by apply Hd, Hd'.
Qed.

Lemma camMoved_emplace camIdx k e :
  toReconstruct e !! camIdx = Some k →
  camMoved camIdx e
    (mkPointData (emplace camIdx k (reconstructed e)) (toReconstruct e)).
Proof.
  intros Hk. split; [|split; [|split]]; simpl.
  - intros cam Hne. by rewrite emplace_lookup, decide_False.
  - intros k' Hk'. by rewrite emplace_lookup, decide_True, Hk'.
  - intros k'. rewrite emplace_lookup, decide_True by done.
    destruct (reconstructed e !! camIdx) as [k0|]; simpl.
    + intros [= <-]. by left.
    + intros [= <-]. by right.
  - done.
Qed.

Lemma camMoved_erase camIdx e :
  camMoved camIdx e
    (mkPointData (reconstructed e) (delete camIdx (toReconstruct e))).
Proof.
  split; [|split; [|split]]; simpl.
  - intros cam Hne. by rewrite lookup_delete_ne.
  - done.
  - intros k Hk. by left.
  - intros k. by rewrite lookup_delete_eq.
Qed.

Lemma camMoved_promote camIdx k e :
  toReconstruct e !! camIdx = Some k →
  camMoved camIdx e (promoteCam camIdx k e).
Proof.
  intros Hk. eapply camMoved_trans; [by apply camMoved_emplace|].
  apply (camMoved_erase camIdx
           (mkPointData (emplace camIdx k (reconstructed e))
              (toReconstruct e))).
Qed.

Lemma Forall2_camMoved_refl camIdx d : Forall2 (camMoved camIdx) d d.
Proof. induction d; constructor; [apply camMoved_refl|done]. Qed.

Lemma Forall2_camMoved_step camIdx d0 d i e e1 :
  Forall2 (camMoved camIdx) d0 d →
  d !! i = Some e → camMoved camIdx e e1 →
  Forall2 (camMoved camIdx) d0 (<[i := e1]> d).
Proof.
  intros Hd Hi He. apply Forall2_same_length_lookup in Hd as [Hlen Hd].
  apply Forall2_same_length_lookup. split; [by rewrite length_insert|].
  intros j x y Hx Hy. destruct (decide (i = j)) as [->|Hne].
  - rewrite list_lookup_insert_eq in Hy by (by eapply lookup_lt_Some).
    injection Hy as <-. eapply camMoved_trans; [|exact He]. by eapply Hd.
  - rewrite list_lookup_insert_ne in Hy by done. by eapply Hd.
Qed.

Lemma markCam_entries_moved camIdx entries :
  Forall2 (camMoved camIdx) entries (markCam_entries camIdx entries).1.
Proof.
  induction entries as [|e rest IH]; simpl; [constructor|].
  destruct (toReconstruct e !! camIdx) as [k|] eqn:Hk.
  - destruct (markCam_entries camIdx rest) as [rest' ok]. simpl in *.
    constructor; [by apply camMoved_promote|done].
  - apply Forall2_camMoved_refl.
Qed.

Lemma markInliers_moved camIdx cps inliers : ∀ d0 d d',
  Forall2 (camMoved camIdx) d0 d →
  stateOf (markInliers camIdx cps inliers d) = Some d' →
  Forall2 (camMoved camIdx) d0 d'.
Proof.
  induction inliers as [|i inliers IH]; intros d0 d d' Hd; simpl.
  - by intros [= <-].
  - destruct (vec_at cps i) as [t|]; [|discriminate].
    destruct (vec_at d t) as [e|] eqn:Et; [|discriminate].
    destruct (toReconstruct e !! camIdx) as [k|] eqn:Hk;
      [|by intros [= <-]].
    apply IH. apply vec_at_Some in Et as [_ Et].
    eapply Forall2_camMoved_step; [done|done|by apply camMoved_emplace].
Qed.

Lemma eraseCam_moved camIdx cps : ∀ d0 d d',
  Forall2 (camMoved camIdx) d0 d →
  stateOf (eraseCam camIdx cps d) = Some d' →
  Forall2 (camMoved camIdx) d0 d'.
Proof.
  induction cps as [|t cps IH]; intros d0 d d' Hd; simpl.
  - by intros [= <-].
  - destruct (vec_at d t) as [e|] eqn:Et; [|discriminate].
    apply IH. apply vec_at_Some in Et as [_ Et].
    eapply Forall2_camMoved_step; [done|done|apply camMoved_erase].
Qed.

(** X4.  Whatever store either form of [markCamAsReconstructed] leaves
    behind, on return or on a throw, the pending buffer and the coordinates
    are unchanged, there are as many tracks, and in every track only camera
    [camIdx] has moved: the entries of all other cameras in both maps are as
    they were, no entry of [reconstructed] is removed or overwritten, an
    entry of [camIdx] that appears in [reconstructed] carries the key index
    that was pending, and [toReconstruct] gains nothing. *)
Theorem markCamAsReconstructed_moves_only_that_camera (camIdx : Z)
  (correspondingPoints inliers : list Z) (p p' : Points)
  (r : outcome Points)
  (Hcall : r = markCamAsReconstructed camIdx p
           ∨ r = markCamAsReconstructedInliers camIdx correspondingPoints
                   inliers p)
  (Hstate : stateOf r = Some p') :
  matchesToReconstruct_ p' = matchesToReconstruct_ p
  ∧ ptCoord_ p' = ptCoord_ p
  ∧ Forall2 (camMoved camIdx) (ptData_ p) (ptData_ p').
Proof.
  destruct Hcall as [-> | ->].
  - unfold markCamAsReconstructed in Hstate.
    pose proof (markCam_entries_moved camIdx (ptData_ p)) as Hm.
    destruct (markCam_entries camIdx (ptData_ p)) as [d ok]. simpl in Hm.
    destruct ok; injection Hstate as <-; simpl; done.
  - unfold markCamAsReconstructedInliers in Hstate.
    destruct (markInliers camIdx correspondingPoints inliers (ptData_ p))
      as [d1|d1|] eqn:E1; simpl in Hstate; [| |discriminate].
    + assert (Forall2 (camMoved camIdx) (ptData_ p) d1) as H1.
      { eapply markInliers_moved; [apply Forall2_camMoved_refl|].
        by rewrite E1. }
      destruct (eraseCam camIdx correspondingPoints d1) as [d2|d2|] eqn:E2;
        simpl in Hstate; [| |discriminate];
        injection Hstate as <-; simpl;
        (split; [done|]; split; [done|]);
        eapply eraseCam_moved; [exact H1|by rewrite E2|exact H1|by rewrite E2].
    + injection Hstate as <-. simpl. split; [done|]. split; [done|].
      eapply markInliers_moved; [apply Forall2_camMoved_refl|].
      by rewrite E1.
Qed.

Lemma markCamAsReconstructed_moves_only_that_camera_witness :
  ∃ p', stateOf (markCamAsReconstructedInliers 6 [0%Z; 2%Z] [1%Z; 0%Z]
                   threeTracks) = Some p'
    ∧ ptCoord_ p' = ptCoord_ threeTracks
    ∧ Forall2 (camMoved 6) (ptData_ threeTracks) (ptData_ p').
Proof.
  eexists. split; [vm_compute; reflexivity|].
  eapply (markCamAsReconstructed_moves_only_that_camera 6 [0%Z; 2%Z]
            [1%Z; 0%Z] threeTracks).
  - right. reflexivity.
  - vm_compute. reflexivity.
Defined.

Lemma addPoints_loop_Thrown camsIdxs coord : ∀ idxs p p',
  addPoints_loop camsIdxs idxs coord p = Thrown p' →
  matchesToReconstruct_ p' = matchesToReconstruct_ p
  ∧ ∃ seeded last idx m,
      ptData_ p' = ptData_ p ++ seeded ++ [last]
      ∧ ptCoord_ p' = ptCoord_ p ++ take (S (length seeded)) coord
      ∧ length seeded < length coord
      ∧ idxs !! length seeded = Some idx
      ∧ vec_at (matchesToReconstruct_ p) idx = Some m
      ∧ (m !! first camsIdxs = None ∨ m !! second camsIdxs = None)
      ∧ toReconstruct last = ∅
      ∧ (∀ cam, cam ≠ first camsIdxs → reconstructed last !! cam = None)
      ∧ (∀ i idx' m', i < length seeded → idxs !! i = Some idx' →
           vec_at (matchesToReconstruct_ p) idx' = Some m' →
           ∃ k1 k2, m' !! first camsIdxs = Some k1
                    ∧ m' !! second camsIdxs = Some k2
                    ∧ seeded !! i = Some (seedTrack camsIdxs m' k1 k2)).
Proof.
  induction coord as [|c coord IH]; intros idxs p p'; simpl; [discriminate|].
  destruct idxs as [|idx idxs]; [discriminate|].
  destruct (vec_at _ idx) as [m|] eqn:Em; [|discriminate].
  destruct (m !! first camsIdxs) as [k1|] eqn:E1.
  - destruct (m !! second camsIdxs) as [k2|] eqn:E2.
    + intros Hrun. apply IH in Hrun
        as (Hbuf & seeded & last & idx' & m' & Hd & Hc & Hlt & Hi & Hm' & Hmiss
            & Hto & Hrec & Hseeded).
      simpl in *. split; [done|].
      exists (seedTrack camsIdxs m k1 k2 :: seeded), last, idx', m'.
      rewrite Hd, Hc, <- !app_assoc. simpl.
      split; [done|]. split; [done|]. split; [lia|].
      do 5 (split; [done|]).
      intros i idx2 m2 Hi2 Hidx2 Hm2. destruct i as [|i]; simpl in *.
      * injection Hidx2 as <-. rewrite Em in Hm2. injection Hm2 as <-.
        eauto.
      * apply (Hseeded i idx2 m2); [lia|done|done].
    + intros [= <-]. simpl. split; [done|].
      exists [], (mkPointData (<[first camsIdxs := k1]> ∅) ∅), idx, m. simpl.
      rewrite take_0.
      split; [done|]. split; [done|]. split; [lia|].
      split; [done|]. split; [done|]. split; [by right|]. split; [done|].
      split; [|intros; lia].
      intros cam Hne. rewrite lookup_insert_ne by done. apply lookup_empty.
  - intros [= <-]. simpl. split; [done|].
    exists [], (mkPointData ∅ ∅), idx, m. simpl.
    rewrite take_0.
    split; [done|]. split; [done|]. split; [lia|].
    split; [done|]. split; [done|]. split; [by left|]. split; [done|].
    split; [done|intros; lia].
Qed.

(** X5.  When the three-argument [addPoints] throws, it is because the match
    referred to by some index lacks a camera of the pair; the store it
    leaves has the pending buffer untouched (no match was consumed), after
    the old tracks the tracks seeded from the matches of the indices before
    that one, each with the pair in [reconstructed] and the rest of its
    match in [toReconstruct], and one more, half-made track: its coordinate
    is appended, its [toReconstruct] is empty and its [reconstructed] holds
    at most the first camera of the pair. *)
Theorem addPoints_throw_leaves_half_made_track (camsIdxs : IntPair)
  (idxs : list Z) (coord : list Vector3d) (p p' : Points)
  (Hthrow : addPoints camsIdxs idxs coord p = Thrown p') :
  matchesToReconstruct_ p' = matchesToReconstruct_ p
  ∧ ∃ seeded last idx m,
      ptData_ p' = ptData_ p ++ seeded ++ [last]
      ∧ ptCoord_ p' = ptCoord_ p ++ take (S (length seeded)) coord
      ∧ length seeded < length coord
      ∧ idxs !! length seeded = Some idx
      ∧ vec_at (matchesToReconstruct_ p) idx = Some m
      ∧ (m !! first camsIdxs = None ∨ m !! second camsIdxs = None)
      ∧ toReconstruct last = ∅
      ∧ (∀ cam, cam ≠ first camsIdxs → reconstructed last !! cam = None)
      ∧ (∀ i idx' m', i < length seeded → idxs !! i = Some idx' →
           vec_at (matchesToReconstruct_ p) idx' = Some m' →
           ∃ d, seeded !! i = Some d
             ∧ (∀ cam, reconstructed d !! cam
                       = if decide (cam = first camsIdxs
                                    ∨ cam = second camsIdxs)
                         then m' !! cam else None)
             ∧ (∀ cam, toReconstruct d !! cam
                       = if decide (cam = first camsIdxs
                                    ∨ cam = second camsIdxs)
                         then None else m' !! cam)).
Proof.
  unfold addPoints in Hthrow.
  destruct (addPoints_loop camsIdxs idxs coord p) as [q|q|] eqn:E;
    simpl in Hthrow; [|injection Hthrow as <-|discriminate].
  - destruct (filterOutOutliers _ _); discriminate.
  - apply addPoints_loop_Thrown in E
      as (Hbuf & seeded & last & idx & m & Hd & Hc & Hlt & Hi & Hm & Hmiss
          & Hto & Hrec & Hseeded).
    split; [done|]. exists seeded, last, idx, m.
    do 8 (split; [done|]).
    intros i idx' m' Hi' Hidx' Hm'.
    destruct (Hseeded i idx' m' Hi' Hidx' Hm') as (k1 & k2 & Hk1 & Hk2 & Hs).
    exists (seedTrack camsIdxs m' k1 k2). split; [done|]. split; intros cam.
    + by apply seedTrack_reconstructed.
    + apply seedTrack_toReconstruct.
Qed.

Lemma addPoints_throw_leaves_half_made_track_witness :
  ∃ p', addPoints pair01 [0%Z; 1%Z] [origin; origin]
          (mkPoints [threeViewMatch; {[0%Z := 20%Z]}] [] [])
        = Thrown p'
    ∧ matchesToReconstruct_ p' = [threeViewMatch; {[0%Z := 20%Z]}]
    ∧ length (ptData_ p') = 2.
Proof.
  eexists. split; [vm_compute; reflexivity|].
  split; [|vm_compute; reflexivity].
  eapply (addPoints_throw_leaves_half_made_track pair01 [0%Z; 1%Z]
            [origin; origin]
            (mkPoints [threeViewMatch; {[0%Z := 20%Z]}] [] [])).
  vm_compute. reflexivity.
Defined.

(** X6.  The bulk [addPoints(pointCoord, pointViews)] never throws and never
    looks at the splits: when there is a split for every coordinate it
    returns with the coordinates appended and, for each, a track whose
    [reconstructed] is the observed part and whose [toReconstruct] is the
    unobserved part, the old tracks and the pending buffer kept; surplus
    splits are ignored; with fewer splits than coordinates it reads past the
    end of [pointViews]. *)
Theorem addPointsViews_appends_the_given_splits (pointCoord : list Vector3d)
  (pointViews : list SplitNViewMatch) (p : Points) :
  addPointsViews pointCoord pointViews p
  = if decide (length pointCoord ≤ length pointViews)
    then Done (mkPoints (matchesToReconstruct_ p)
                 (ptCoord_ p ++ pointCoord)
                 (ptData_ p
                  ++ (trackOfSplit <$> take (length pointCoord) pointViews)))
    else Undefined.
Proof.
  revert pointViews p.
  induction pointCoord as [|c cs IH]; intros views p.
  - cbn [addPointsViews length]. case_decide; [|lia].
    rewrite take_0. cbn [fmap list_fmap]. rewrite !app_nil_r. by destruct p.
  - destruct views as [|v views]; cbn [addPointsViews length].
    + case_decide; [lia|done].
    + rewrite IH. cbn [pushTrack matchesToReconstruct_ ptCoord_ ptData_].
      repeat case_decide; try lia; [|done].
      rewrite <- !app_assoc. done.
Qed.


(** * Further properties of datasets *)

Lemma Dataset_copy_clones_witness :
  ∃ d h', Dataset_copy datasetB twoCameraHeap = Some (d, h')
    ∧ length (cams_ d) = 1
    ∧ NoDup (cams_ d)
    ∧ reconstructedCams_ d = {[0%Z]}.
Proof.
  destruct (Dataset_copy_clones datasetB twoCameraHeap)
    as (d & h' & Hrun & _ & _ & Hrc & _ & Hlen & _ & Hnd & _).
  - intros l Hl. apply list_elem_of_singleton in Hl. subst l.
    eexists. reflexivity.
  - exists d, h'. split; [exact Hrun|]. split; [exact Hlen|].
    split; [exact Hnd|exact Hrc].
Defined.

Section DatasetMembers.
Context {CameraPair : Type}.

(** X8.  The copy assignment [this = o] between two different datasets whose
    source owns live cameras: every member but [cams_] becomes that of [o],
    and [cams_] becomes the cameras the target had, in place and untouched,
    followed by one new object per camera of [o], a copy of it at an address
    that was not in use; so the target ends with as many cameras as both
    datasets had together. *)
Theorem Dataset_assign_appends_clones (o this : Dataset CameraPair) (h : heap)
  (Hlive : ∀ l, l ∈ cams_ o → is_Some (h !! l)) :
  ∃ d h' news,
    Dataset_assign o this h = Some (d, h')
    ∧ cams_ d = cams_ this ++ news
    ∧ length news = length (cams_ o)
    ∧ numCams d = (numCams this + numCams o)%Z
    ∧ dir_ d = dir_ o ∧ pairs_ d = pairs_ o
    ∧ reconstructedCams_ d = reconstructedCams_ o
    ∧ points_ d = points_ o
    ∧ (∀ l obj, h !! l = Some obj → h' !! l = Some obj)
    ∧ ∀ i l', news !! i = Some l' →
        (l' ∉ dom h) ∧ ∃ l, cams_ o !! i = Some l ∧ h' !! l' = h !! l.
Proof.
  destruct (cloneInto_appends_clones (cams_ o) (cams_ this) h Hlive)
    as (news & h' & Hrun & Hlen & Hsub & Hnd & Hnews).
  unfold Dataset_assign, copyIn. rewrite Hrun.
  eexists _, h', news. split; [reflexivity|]. simpl.
  split; [done|]. split; [done|].
  split; [unfold numCams; simpl; rewrite length_app; lia|].
  do 4 (split; [done|]). split; [|done].
  intros l obj Hl. by eapply lookup_weaken.
Qed.

(** X9.  [Dataset::markCamAsReconstructed(camIdx)] inserts the camera into
    the registered set before it updates the tracks.  When a track lacks the
    camera in [toReconstruct] the call throws, and the dataset it leaves has
    the camera registered although every track after that one is untouched,
    so one that had the camera pending still has it pending. *)
Theorem Dataset_markCamAsReconstructed_registers_before_it_throws
  (camIdx : Z) (d : Dataset CameraPair) (pre post : list PointData)
  (e : PointData)
  (Hsplit : ptData_ (points_ d) = pre ++ e :: post)
  (Hpre : Forall (λ e, is_Some (toReconstruct e !! camIdx)) pre)
  (He : toReconstruct e !! camIdx = None) :
  ∃ d', Dataset_markCamAsReconstructed camIdx d = Thrown d'
    ∧ camIdx ∈ reconstructedCams_ d'
    ∧ cams_ d' = cams_ d
    ∧ ∀ e2, e2 ∈ post → e2 ∈ ptData_ (points_ d').
Proof.
  unfold Dataset_markCamAsReconstructed, markCamAsReconstructed.
  rewrite Hsplit, (markCam_entries_stops _ _ _ _ Hpre He). simpl.
  eexists. split; [reflexivity|]. simpl.
  split; [apply elem_of_union; left; by apply elem_of_singleton|].
  split; [done|].
  intros e2 He2. apply elem_of_app. right. by right.
Qed.

(** A camera object without its descriptors: the keys and the image stay. *)
Lemma clearDescriptorsObj_twice o :
  clearDescriptorsObj (clearDescriptorsObj o) = clearDescriptorsObj o.
Proof. by destruct o. Qed.

Lemma clearDescriptorsAll_objects cams : ∀ (h : heap),
  (∀ l, l ∈ cams → is_Some (h !! l)) →
  ∃ h', clearDescriptorsAll cams h = Some h'
    ∧ ∀ l, h' !! l
           = (λ o, if decide (l ∈ cams) then clearDescriptorsObj o else o)
             <$> h !! l.
Proof.
  induction cams as [|cam cams IH]; intros h Hlive; simpl.
  - exists h. split; [done|]. intros l.
    destruct (h !! l); done.
  - destruct (Hlive cam) as [o Ho]; [left|]. rewrite Ho.
    destruct (IH (<[cam := clearDescriptorsObj o]> h)) as (h' & Hrun & Hobj).
    { intros l Hl. rewrite lookup_insert_is_Some'. right. apply Hlive.
      by right. }
    exists h'. split; [done|]. intros l. rewrite Hobj.
    destruct (decide (l = cam)) as [->|Hne].
    + rewrite lookup_insert_eq, Ho. simpl.
      destruct (decide (cam ∈ cam :: cams)) as [_|Hn];
        [|exfalso; apply Hn; by left].
      destruct (decide (cam ∈ cams));
        [by rewrite clearDescriptorsObj_twice|done].
    + rewrite lookup_insert_ne by done.
      destruct (h !! l) as [o'|]; simpl; [|done].
      destruct (decide (l ∈ cams)) as [Hin|Hout];
        destruct (decide (l ∈ cam :: cams)) as [Hin'|Hout']; try done.
      * exfalso. apply Hout'. by right.
      * exfalso. apply elem_of_cons in Hin' as [?|?]; done.
Qed.

(** X10.  [Dataset::clearDescriptors] on a dataset that owns live cameras
    returns; every camera of the dataset then has an empty descriptor array
    and the keys, image name and image size it had; every other object of
    the store, and every member of the dataset, is untouched. *)
Theorem Dataset_clearDescriptors_keeps_keys (d : Dataset CameraPair)
  (h : heap)
  (Hlive : ∀ l, l ∈ cams_ d → is_Some (h !! l)) :
  ∃ h', Dataset_clearDescriptors d h = Some h'
    ∧ (∀ l o, h !! l = Some o →
         ∃ o', h' !! l = Some o'
           ∧ keys_ (baseOfObj o') = keys_ (baseOfObj o)
           ∧ imgFilename_ (baseOfObj o') = imgFilename_ (baseOfObj o)
           ∧ imgWidth_ (baseOfObj o') = imgWidth_ (baseOfObj o)
           ∧ imgHeight_ (baseOfObj o') = imgHeight_ (baseOfObj o)
           ∧ (l ∈ cams_ d → descr_ (baseOfObj o') = mkArrayXXf 0 [])
           ∧ (l ∉ cams_ d → o' = o))
    ∧ (∀ l, h !! l = None → h' !! l = None).
Proof.
  destruct (clearDescriptorsAll_objects (cams_ d) h Hlive) as (h' & Hrun & Hobj).
  exists h'. split; [done|]. split.
  - intros l o Ho. rewrite Hobj, Ho. simpl.
    destruct (decide (l ∈ cams_ d)) as [Hin|Hout].
    + eexists. split; [reflexivity|]. by destruct o.
    + exists o. split; [done|]. done.
  - intros l Hl. by rewrite Hobj, Hl.
Qed.

End DatasetMembers.

Lemma Dataset_assign_appends_clones_witness :
  ∃ d h', Dataset_assign datasetB datasetA twoCameraHeap = Some (d, h')
    ∧ numCams d = 2%Z
    ∧ h' !! 1%positive = Some (ObjCamera cameraA).
Proof.
  destruct (Dataset_assign_appends_clones datasetB datasetA twoCameraHeap)
    as (d & h' & news & Hrun & _ & _ & Hnum & _ & _ & _ & _ & Hold & _).
  - intros l Hl. apply list_elem_of_singleton in Hl. subst l.
    eexists. reflexivity.
  - exists d, h'. split; [exact Hrun|]. split; [exact Hnum|].
    apply Hold. reflexivity.
Defined.

Lemma Dataset_markCamAsReconstructed_registers_witness :
  ∃ d', Dataset_markCamAsReconstructed 5
          (mkDataset (CameraPair := unit) "dir" [] ∅ ∅ twoTracks)
        = Thrown d'
    ∧ 5%Z ∈ reconstructedCams_ d'
    ∧ mkPointData {[0%Z := 3%Z; 1%Z := 4%Z]} {[5%Z := 7%Z]}
      ∈ ptData_ (points_ d').
Proof.
  destruct (Dataset_markCamAsReconstructed_registers_before_it_throws 5
              (mkDataset (CameraPair := unit) "dir" [] ∅ ∅ twoTracks) []
              [mkPointData {[0%Z := 3%Z; 1%Z := 4%Z]} {[5%Z := 7%Z]}]
              (mkPointData {[0%Z := 1%Z; 1%Z := 2%Z]} ∅))
    as (d' & Hrun & Hreg & _ & Hpost).
  - reflexivity.
  - constructor.
  - reflexivity.
  - exists d'. split; [exact Hrun|]. split; [exact Hreg|].
    apply Hpost. by left.
Defined.

Lemma Dataset_clearDescriptors_keeps_keys_witness :
  ∃ h', Dataset_clearDescriptors datasetA twoCameraHeap = Some h'
    ∧ h' !! 2%positive = Some (ObjCamera cameraB).
Proof.
  destruct (Dataset_clearDescriptors_keeps_keys datasetA twoCameraHeap)
    as (h' & Hrun & Hobj & _).
  - intros l Hl. apply list_elem_of_singleton in Hl. subst l.
    eexists. reflexivity.
  - exists h'. split; [exact Hrun|].
    destruct (Hobj 2%positive (ObjCamera cameraB) eq_refl)
      as (o' & Ho' & _ & _ & _ & _ & _ & Hsame).
    rewrite Ho'. f_equal. apply Hsame.
    intros Hin. apply list_elem_of_singleton in Hin. discriminate.
Defined.


(** * Further properties of cameras *)

(** X11.  A call of [addFeature] that stays inside the descriptor array
    appends the key [(x, y)] after the keys the camera had, so [key] gives it
    back at the old number of keys and gives every older key as before; it
    writes the first [descr_.rows()] values of the descriptor into the column
    of that number, and keeps the shape of the array and the image. *)
Theorem addFeature_appends_key_and_column (x y : float) (descr : list float)
  (c c' : Camera)
  (Hadd : addFeature x y descr c = Some c') :
  keys_ c' = keys_ c ++ [mkVector2d x y]
  ∧ key c' (Z.of_nat (length (keys_ c))) = Some (mkVector2d x y)
  ∧ (∀ i v, key c i = Some v → key c' i = Some v)
  ∧ arr_cols (descr_ c') !! length (keys_ c)
    = Some (take (arr_rows (descr_ c)) descr)
  ∧ (∀ j, j ≠ length (keys_ c) →
       arr_cols (descr_ c') !! j = arr_cols (descr_ c) !! j)
  ∧ arr_rows (descr_ c') = arr_rows (descr_ c)
  ∧ length (arr_cols (descr_ c')) = length (arr_cols (descr_ c))
  ∧ imgFilename_ c' = imgFilename_ c
  ∧ imgWidth_ c' = imgWidth_ c ∧ imgHeight_ c' = imgHeight_ c.
Proof.
  unfold addFeature in Hadd. case_decide as Hin; [|discriminate].
  destruct Hin as [Hcol Hrows]. injection Hadd as <-. simpl.
  split; [done|]. split.
  { unfold key. simpl. rewrite vec_at_of_nat.
    rewrite lookup_app_r by lia. by rewrite Nat.sub_diag. }
  split.
  { unfold key. simpl. intros i v [Hi Hv]%vec_at_Some.
    apply vec_at_Some. split; [done|]. by apply lookup_app_l_Some. }
  split; [by apply list_lookup_insert_eq|].
  split; [intros j Hj; by apply list_lookup_insert_ne|].
  split; [done|]. split; [by rewrite length_insert|done].
Qed.

Lemma addFeature_appends_key_and_column_witness :
  ∃ c', addFeature 3 4 [1; 2; 3]%float
          (mkCamera "a.jpg" 640 480 [] (mkArrayXXf 2 [[0; 0]; [0; 0]]%float))
        = Some c'
    ∧ key c' 0 = Some (mkVector2d 3 4)
    ∧ arr_cols (descr_ c') !! 0 = Some [1; 2]%float.
Proof.
  eexists. split; [reflexivity|].
  destruct (addFeature_appends_key_and_column 3 4 [1; 2; 3]%float
              (mkCamera "a.jpg" 640 480 []
                 (mkArrayXXf 2 [[0; 0]; [0; 0]]%float)) _ eq_refl)
    as (_ & Hkey & _ & Hcol & _).
  split; [exact Hkey|exact Hcol].
Defined.

Lemma addFeature_defined x y descr c :
  is_Some (addFeature x y descr c)
  ↔ length (keys_ c) < length (arr_cols (descr_ c))
    ∧ arr_rows (descr_ c) ≤ length descr.
Proof.
  unfold addFeature. case_decide; split; intros Hs; try done.
Qed.

(** X12.  [addFeature] can be called as long as the camera has fewer keys
    than its descriptor array has columns: a run of calls with descriptors
    long enough is defined exactly when it is empty or the keys it adds
    still fit the columns, and it then appends the keys in the order of the
    calls.  One call more writes outside the array. *)
Theorem addFeatures_fill_the_columns (feats : list Feature) (c : Camera)
  (Hlong : Forall (λ f, arr_rows (descr_ c) ≤ length (feat_descr f)) feats) :
  (is_Some (addFeatures feats c)
   ↔ feats = []
     ∨ length (keys_ c) + length feats ≤ length (arr_cols (descr_ c)))
  ∧ ∀ c', addFeatures feats c = Some c' →
      keys_ c' = keys_ c ++ ((λ f, mkVector2d (feat_x f) (feat_y f)) <$> feats)
      ∧ (feats ≠ [] → length (keys_ c') ≤ length (arr_cols (descr_ c'))).
Proof.
  revert c Hlong. induction feats as [|f feats IH]; intros c Hlong; simpl.
  - split; [split; eauto|]. intros c' [= <-]. rewrite app_nil_r. done.
  - inversion Hlong as [|? ? Hf Hrest]; subst.
    destruct (addFeature (feat_x f) (feat_y f) (feat_descr f) c)
      as [c1|] eqn:E1.
    + pose proof (addFeature_appends_key_and_column _ _ _ _ _ E1)
        as (Hk & _ & _ & _ & _ & Hr & Hc & _).
      assert (length (keys_ c) < length (arr_cols (descr_ c))) as Hlt.
      { apply (addFeature_defined (feat_x f) (feat_y f) (feat_descr f) c).
        by rewrite E1. }
      destruct (IH c1) as [Hdef Hkeys]; [by rewrite Hr|].
      split.
      * rewrite Hdef, Hk, Hc, length_app. simpl. split.
        -- intros [-> | Hle]; right; simpl; lia.
        -- intros [? | Hle]; [done|]. destruct feats; [by left|right].
           simpl in *. lia.
      * intros c' Hc'. destruct (Hkeys c' Hc') as [Hk' Hfit].
        split; [by rewrite Hk', Hk, <- app_assoc|]. intros _.
        destruct feats as [|f2 feats]; [|apply Hfit; discriminate].
        simpl in Hc'. injection Hc' as <-.
        rewrite Hk, Hc, length_app. simpl. lia.
    + split; [|discriminate]. split; [by intros [? ?]|].
      intros [? | Hle]; [done|]. exfalso.
      assert (is_Some (addFeature (feat_x f) (feat_y f) (feat_descr f) c))
        as [? ?]; [|congruence].
      apply addFeature_defined. split; [lia|done].
Qed.

Lemma addFeatures_fill_the_columns_witness :
  is_Some (addFeatures [mkFeature 1 2 [0; 0]%float; mkFeature 3 4 [0; 0]%float]
             (mkCamera "a.jpg" 640 480 []
                (mkArrayXXf 2 [[0; 0]; [0; 0]]%float)))
  ∧ ¬ is_Some (addFeatures
                 [mkFeature 1 2 [0; 0]%float; mkFeature 3 4 [0; 0]%float;
                  mkFeature 5 6 [0; 0]%float]
                 (mkCamera "a.jpg" 640 480 []
                    (mkArrayXXf 2 [[0; 0]; [0; 0]]%float))).
Proof.
  split.
  - apply (addFeatures_fill_the_columns
             [mkFeature 1 2 [0; 0]%float; mkFeature 3 4 [0; 0]%float]
             (mkCamera "a.jpg" 640 480 []
                (mkArrayXXf 2 [[0; 0]; [0; 0]]%float))).
    + repeat constructor.
    + right. simpl. lia.
  - intros [c' Hc']. vm_compute in Hc'. discriminate.
Defined.

(** X13.  For a parameter vector whose three rotation entries are zero (no
    rotation), [setParams] followed by [params] gives back the vector itself,
    for the standard and for the radial camera: the camera stores angle 0
    about the x axis and [params] multiplies them back to three zeros. *)
Theorem setParams_then_params_exact_without_rotation `{Externals}
  (c : ParamCamera) (p : list float)
  (Hlen : length p = numParams c)
  (Hrot : take 3 p = [0; 0; 0]%float) :
  ∃ c', virtualSetParams p c = Some c' ∧ virtualParams c' = p.
Proof.
  destruct c as [s|r]; simpl in Hlen.
  - destruct p as [|x [|y [|z [|c0 [|c1 [|c2 [|f [|? ?]]]]]]]];
      try discriminate.
    simpl in Hrot. injection Hrot as -> -> ->.
    eexists. split; reflexivity.
  - destruct p as [|x [|y [|z [|c0 [|c1 [|c2 [|f [|r0 [|r1 [|? ?]]]]]]]]]];
      try discriminate.
    simpl in Hrot. injection Hrot as -> -> ->.
    eexists. split; reflexivity.
Qed.

Lemma setParams_then_params_exact_witness :
  ∃ c', @virtualSetParams vgaExternals [0; 0; 0; 1; 2; 3; 500]%float
          (PStandard vgaCamera) = Some c'
    ∧ virtualParams c' = [0; 0; 0; 1; 2; 3; 500]%float.
Proof.
  apply (@setParams_then_params_exact_without_rotation vgaExternals
           (PStandard vgaCamera) [0; 0; 0; 1; 2; 3; 500]%float);
    reflexivity.
Defined.

(** X14.  [StandardCamera::setParams(const vector<double>&)] is defined
    exactly on vectors of at least seven entries and reads the first seven
    only (so the radial camera can hand it its nine); it stores entries four
    to six as the center and the seventh as the focal length, and leaves the
    image, the keys and descriptors, the principal point and both constraint
    vectors as they were. *)
Theorem setParams_reads_seven_entries (p : list float) (c : StandardCamera) :
  (is_Some (setParams p c) ↔ nParams_ ≤ length p)
  ∧ ∀ c', setParams p c = Some c' →
      setParams (take nParams_ p) c = Some c'
      ∧ base c' = base c ∧ x0_ c' = x0_ c
      ∧ paramsConstraints_ c' = paramsConstraints_ c
      ∧ paramsConstraintsWeights_ c' = paramsConstraintsWeights_ c
      ∧ map3 p CIdx_ = Some (C_ c')
      ∧ p !! fIdx_ = Some (f_ c').
Proof.
  destruct p as [|x [|y [|z [|c0 [|c1 [|c2 [|f rest]]]]]]];
    try (split; [split; [by intros [? ?]|simpl; unfold nParams_; lia]
               |discriminate]).
  split.
  - split; [simpl; unfold nParams_; lia|]. intros _.
    unfold setParams, map3. simpl. eauto.
  - intros c' Hset. unfold setParams, map3 in *. simpl in *.
    injection Hset as <-. simpl. done.
Qed.

Section ConstraintVectors.
Context `{Externals}.

Lemma runCamOp_constraints op c c' :
  runCamOp op c = Some c' →
  length (paramsConstraints_ c) = length (paramsConstraintsWeights_ c) →
  length (paramsConstraints_ c') = length (paramsConstraints_ c)
  ∧ length (paramsConstraintsWeights_ c') = length (paramsConstraints_ c).
Proof.
  intros Hrun Heq. destruct op; simpl in Hrun.
  - destruct (reserveFeatures num dim (base c)); [|discriminate].
    by injection Hrun as <-.
  - destruct (addFeature x y descr (base c)); [|discriminate].
    by injection Hrun as <-.
  - by injection Hrun as <-.
  - injection Hrun as <-. simpl. by rewrite !length_insert.
  - by injection Hrun as <-.
  - by injection Hrun as <-.
  - unfold setParamsConstraints in Hrun.
    case_decide as Hn; [|discriminate]. injection Hrun as <-. simpl.
    rewrite length_app, !length_take, length_drop. lia.
Qed.

Lemma runCamCall_constraints call c c' :
  runCamCall call c = Some c' →
  length (paramsConstraints_ c) = length (paramsConstraintsWeights_ c) →
  length (paramsConstraints_ c') = length (paramsConstraints_ c)
  ∧ length (paramsConstraintsWeights_ c') = length (paramsConstraints_ c).
Proof.
  intros Hrun Heq. destruct call as [op|f|p]; simpl in Hrun.
  - by eapply runCamOp_constraints.
  - by injection Hrun as <-.
  - destruct (setParams_reads_seven_entries p c) as [_ Hframe].
    destruct (Hframe c' Hrun) as (_ & _ & _ & -> & -> & _). done.
Qed.

Lemma runCamCalls_constraints calls : ∀ c c',
  runCamCalls calls c = Some c' →
  length (paramsConstraints_ c) = length (paramsConstraintsWeights_ c) →
  length (paramsConstraints_ c') = length (paramsConstraints_ c)
  ∧ length (paramsConstraintsWeights_ c') = length (paramsConstraints_ c).
Proof.
  induction calls as [|call calls IH]; intros c c'; simpl.
  - intros [= <-] Heq. done.
  - destruct (runCamCall call c) as [c1|] eqn:E; [|discriminate].
    intros Hrun Heq.
    destruct (runCamCall_constraints _ _ _ E Heq) as [H1 H2].
    destruct (IH _ _ Hrun) as [H3 H4]; [congruence|]. split; congruence.
Qed.

Lemma runRadialCalls_constraints calls : ∀ c c',
  runRadialCalls calls c = Some c' →
  length (paramsConstraints_ (standard c))
  = length (paramsConstraintsWeights_ (standard c)) →
  length (paramsConstraints_ (standard c'))
  = length (paramsConstraints_ (standard c))
  ∧ length (paramsConstraintsWeights_ (standard c'))
    = length (paramsConstraints_ (standard c)).
Proof.
  induction calls as [|call calls IH]; intros c c'; simpl.
  - intros [= <-] Heq. done.
  - destruct (runRadialCall call c) as [c1|] eqn:E; [|discriminate].
    intros Hrun Heq.
    assert (length (paramsConstraints_ (standard c1))
            = length (paramsConstraints_ (standard c))
            ∧ length (paramsConstraintsWeights_ (standard c1))
              = length (paramsConstraints_ (standard c))) as [H1 H2].
    { destruct call as [call|cs ws|p]; simpl in E.
      - destruct (runCamCall call (standard c)) as [s1|] eqn:E1;
          [|discriminate].
        injection E as <-. simpl. by eapply runCamCall_constraints.
      - injection E as <-. simpl. by rewrite !length_insert.
      - unfold setParamsRadial in E.
        destruct (setParams p (standard c)) as [s1|] eqn:E1; [|discriminate].
        destruct (p !! (radIdx_ + 0)); [|discriminate].
        destruct (p !! (radIdx_ + 1)); [|discriminate].
        injection E as <-. simpl.
        destruct (setParams_reads_seven_entries p (standard c)) as [_ Hframe].
        destruct (Hframe s1 E1) as (_ & _ & _ & -> & -> & _). done. }
    destruct (IH _ _ Hrun) as [H3 H4]; [congruence|]. split; congruence.
Qed.

(** X15.  Whatever members are called on a camera after its constructor,
    its two constraint vectors keep the length the constructor gave them:
    seven entries for a standard camera and nine for a radial one, one per
    parameter.  So the writes of [constrainFocal] and [constrainRadial] at
    their fixed positions always fall inside the vectors. *)
Theorem constraint_vectors_keep_one_entry_per_parameter
  (imgFilename : string) (rot0 : AngleAxisd)
  (calls : list CamCall) (radialCalls : list RadialCall)
  (c : StandardCamera) (r : StandardCameraRadial)
  (Hc : runCamCalls calls (StandardCamera_new imgFilename rot0) = Some c)
  (Hr : runRadialCalls radialCalls
          (StandardCameraRadial_new imgFilename rot0) = Some r) :
  length (paramsConstraints_ c) = nParams_
  ∧ length (paramsConstraintsWeights_ c) = nParams_
  ∧ length (paramsConstraints_ (standard r)) = nParamsRadial_
  ∧ length (paramsConstraintsWeights_ (standard r)) = nParamsRadial_
  ∧ numParams (PStandard c) = length (paramsConstraints_ c)
  ∧ numParams (PRadial r) = length (paramsConstraints_ (standard r)).
Proof.
  destruct (runCamCalls_constraints _ _ _ Hc) as [H1 H2]; [reflexivity|].
  destruct (runRadialCalls_constraints _ _ _ Hr) as [H3 H4]; [reflexivity|].
  rewrite H1, H2, H3, H4. repeat split; reflexivity.
Qed.

End ConstraintVectors.

Lemma constraint_vectors_witness :
  ∃ c r,
    @runCamCalls vgaExternals
      [CallSetParams [0; 0; 0; 1; 2; 3; 500]%float;
       CallOp (OpConstrainFocal 500 1)]
      (@StandardCamera_new vgaExternals "img.jpg" (mkAngleAxisd 0 UnitX))
    = Some c
    ∧ @runRadialCalls vgaExternals
        [RCallConstrainRadial (0, 0)%float (1, 1)%float;
         RCallInherited (CallSetFocal 500)]
        (@StandardCameraRadial_new vgaExternals "img.jpg"
           (mkAngleAxisd 0 UnitX))
      = Some r
    ∧ length (paramsConstraints_ c) = 7
    ∧ length (paramsConstraintsWeights_ (standard r)) = 9.
Proof.
  eexists _, _. split; [vm_compute; reflexivity|].
  split; [vm_compute; reflexivity|].
  match goal with
  | |- length (paramsConstraints_ ?c) = _ ∧ _ =>
      match goal with
      | |- _ ∧ length (paramsConstraintsWeights_ (standard ?r)) = _ =>
          destruct (@constraint_vectors_keep_one_entry_per_parameter
                      vgaExternals "img.jpg" (mkAngleAxisd 0 UnitX)
                      [CallSetParams [0; 0; 0; 1; 2; 3; 500]%float;
                       CallOp (OpConstrainFocal 500 1)]
                      [RCallConstrainRadial (0, 0)%float (1, 1)%float;
                       RCallInherited (CallSetFocal 500)] c r)
            as (H1 & _ & _ & H4 & _)
      end
  end.
  - vm_compute. reflexivity.
  - vm_compute. reflexivity.
  - split; [exact H1|exact H4].
Defined.


(** * Further properties of the batch driver *)

Lemma foldl_max_bounds {A} (f : A → Z) (l : list A) : ∀ init,
  (init ≤ foldl (λ m x, Z.max m (f x)) init l)%Z
  ∧ (∀ x, x ∈ l → (f x ≤ foldl (λ m x, Z.max m (f x)) init l)%Z)
  ∧ (foldl (λ m x, Z.max m (f x)) init l = init
     ∨ ∃ x, x ∈ l ∧ foldl (λ m x, Z.max m (f x)) init l = f x).
Proof.
  induction l as [|a l IH]; intros init; simpl.
  - split; [lia|]. split; [|by left]. intros x Hx. by apply not_elem_of_nil in Hx.
  - destruct (IH (Z.max init (f a))) as (Hle & Hall & Hwhich).
    split; [lia|]. split.
    + intros x [->|Hx]%elem_of_cons; [lia|by apply Hall].
    + destruct Hwhich as [Heq|(x & Hx & Heq)].
      * destruct (Z.max_spec init (f a)) as [[_ Hm]|[_ Hm]].
        -- right. exists a. split; [left|congruence].
        -- left. congruence.
      * right. exists x. split; [by right|done].
Qed.

Section BatchDriver.
Context `{SiftGPUApi}.



(** X18.  For a camera whose image width and height are not below -1 (the
    value a camera has when its image could not be read), the batch
    [detectSiftGPU] on that camera alone leaves it as the single-camera
    [detectSiftGPU] does. *)
Theorem detectSiftGPU_batch_of_one_is_the_single_call
  (opt : OptionsSIFTGPU) (cam : Camera)
  (callbackFunction callbackObjectPtr : option positive)
  (Hw : (-1 ≤ imgWidth_ cam)%Z) (Hh : (-1 ≤ imgHeight_ cam)%Z) :
  (detectSiftGPU opt [cam] callbackFunction callbackObjectPtr).1
  = [detectSiftGPU_single opt cam].
Proof.
  unfold detectSiftGPU, detectSiftGPU_single. simpl.
  rewrite !Z.max_r by lia.
  destruct (initializeSiftGPU opt (imgWidth_ cam) (imgHeight_ cam)
              (CreateNewSiftGPU 1)) as [success sift'].
  destruct success; simpl; [|done].
  by destruct (detectSiftGPU_cam sift' cam).
Qed.

(** X19.  The batch [detectSiftGPU] initialises one detector for the whole
    batch, with a width and a height that no image of the batch exceeds:
    each is the largest of the cameras' values, or -1 when no camera has a
    value above -1, so an empty batch still initialises a detector, with -1
    by -1. *)
Theorem detectSiftGPU_sizes_the_context_to_the_largest_image
  (opt : OptionsSIFTGPU) (cams : list Camera)
  (callbackFunction callbackObjectPtr : option positive) :
  ∃ maxWidth maxHeight,
    detectSiftGPU opt cams callbackFunction callbackObjectPtr
    = (let '(success, sift') :=
         initializeSiftGPU opt maxWidth maxHeight (CreateNewSiftGPU 1) in
       if negb success then (cams, [])
       else detectLoop sift' cams callbackFunction callbackObjectPtr 0%Z)
    ∧ (∀ c, c ∈ cams →
         (imgWidth_ c ≤ maxWidth)%Z ∧ (imgHeight_ c ≤ maxHeight)%Z)
    ∧ (maxWidth = (-1)%Z ∨ ∃ c, c ∈ cams ∧ maxWidth = imgWidth_ c)
    ∧ (maxHeight = (-1)%Z ∨ ∃ c, c ∈ cams ∧ maxHeight = imgHeight_ c)
    ∧ (-1 ≤ maxWidth)%Z ∧ (-1 ≤ maxHeight)%Z.
Proof.
  destruct (foldl_max_bounds imgWidth_ cams (-1)%Z) as (Hw1 & Hw2 & Hw3).
  destruct (foldl_max_bounds imgHeight_ cams (-1)%Z) as (Hh1 & Hh2 & Hh3).
  eexists _, _. split; [reflexivity|].
  split; [intros c Hc; split; [by apply Hw2|by apply Hh2]|].
  split; [exact Hw3|]. split; [exact Hh3|]. split; [exact Hw1|exact Hh1].
Qed.

End BatchDriver.


Lemma detectSiftGPU_batch_of_one_witness :
  (@detectSiftGPU (stubSiftGPU 1) someOptions [cameraB] None None).1
  = [@detectSiftGPU_single (stubSiftGPU 1) someOptions cameraB].
Proof.
  apply (@detectSiftGPU_batch_of_one_is_the_single_call (stubSiftGPU 1)
           someOptions cameraB None None); simpl; lia.
Defined.
